(** * mongo-migrate: the migration engine and its version ledger

    A shallow embedding of [migration.go], [versions.go] and [migrate.go].

    The Go code runs against a MongoDB handle.  Here the world the code
    runs in is an explicit record: the backing arrays of the [Migrations]
    slices (so that aliasing between the caller's slice and the migrator's
    clone is visible), the documents of the ledger collection in insertion
    order, the rest of the database (an abstract type [DB] that the
    migration actions transform), a clock for [time.Now], the outcomes of
    the driver calls still to come, and a ghost trace of the migration
    actions invoked so far.

    Go functions returning [error] are functions into [M (option error)]:
    [None] is [nil].  The only non-returning outcome is a Go [panic]. *)

From Stdlib Require Import ZArith NArith Lia.
From stdpp Require Import base option list sorting gmap strings.

Open Scope string_scope.
Open Scope list_scope.
Open Scope nat_scope.

(** ** Errors *)

(** [mongo.ErrNoDocuments], an error value made by the driver or by a
    migration action, and [errors.Wrapf cause format arg] (the formatted
    message is kept as its format string and its single argument). *)
Inductive error : Type :=
| ErrNoDocuments
| ErrorNew (msg : string)
| Wrapf (cause : error) (format : string) (arg : N).

(** The innermost error of a chain of [Wrapf], as [errors.Cause] gives it. *)
Fixpoint Cause (e : error) : error :=
  match e with
  | Wrapf c _ _ => Cause c
  | _ => e
  end.

(** ** migration.go: data *)

(** [type Version struct { ID uint; Description string; Timestamp time.Time }].
    Ids are only compared, never computed with, so [uint] is [N]. *)
Record Version : Type := mkVersion {
  ID : N;
  Description : string;
  Timestamp : nat
}.

(** A slice header: the address of its backing array. *)
Definition loc := positive.

(** Action invocations, recorded in the ghost trace with the id of the
    migration whose action was called. *)
Inductive Event : Type :=
| CallUp (id : N)
| CallDown (id : N).

Section migrate.

Context {DB : Type}.

(** [type MigrationFn func(db *mongo.Database) error]: an action may change
    the database and reports [nil] or an error.  Actions are assumed to
    leave the ledger collection alone (single-writer model). *)
Definition MigrationFn : Type := DB → DB * option error.

(** [type Migration struct { Version; Up MigrationFn; Down MigrationFn }];
    a [nil] function is [None].  The embedded [Version] is [MVersion]. *)
Record Migration : Type := mkMigration {
  MVersion : Version;
  Up : option MigrationFn;
  Down : option MigrationFn
}.

(** The literal [Migration{Version: 0}]: id 0, every other field zero. *)
Definition Migration_zero : Migration :=
  mkMigration (mkVersion 0 "" 0) None None.

(** ** The world *)

Record World : Type := mkWorld {
  heap : gmap loc (list Migration);
  ledger : list Version;
  db : DB;
  clock : nat;
  faults : list (option string);
  trace : list Event
}.

Definition set_heap (h : gmap loc (list Migration)) (w : World) : World :=
  mkWorld h (ledger w) (db w) (clock w) (faults w) (trace w).
Definition set_ledger (l : list Version) (w : World) : World :=
  mkWorld (heap w) l (db w) (clock w) (faults w) (trace w).
Definition set_db (d : DB) (w : World) : World :=
  mkWorld (heap w) (ledger w) d (clock w) (faults w) (trace w).
Definition set_clock (c : nat) (w : World) : World :=
  mkWorld (heap w) (ledger w) (db w) c (faults w) (trace w).
Definition set_faults (f : list (option string)) (w : World) : World :=
  mkWorld (heap w) (ledger w) (db w) (clock w) f (trace w).
Definition set_trace (t : list Event) (w : World) : World :=
  mkWorld (heap w) (ledger w) (db w) (clock w) (faults w) t.

(** ** The monad of Go statements *)

Inductive outcome (A : Type) : Type :=
| Done (a : A)
| Panic (msg : string).
Global Arguments Done {A} a.
Global Arguments Panic {A} msg.

Definition M (A : Type) : Type := World → outcome A * World.

Global Instance M_ret : MRet M := λ A a w, (Done a, w).
Global Instance M_bind : MBind M := λ A B k c w,
  match c w with
  | (Done a, w') => k a w'
  | (Panic msg, w') => (Panic msg, w')
  end.

Definition panic {A : Type} (msg : string) : M A := λ w, (Panic msg, w).
Definition gets {A : Type} (f : World → A) : M A := λ w, (Done (f w), w).
Definition modify (f : World → World) : M unit := λ w, (Done tt, f w).

(** ** The environment: driver, clock, actions, slices *)

(** Every driver call consumes the head of [faults]: [Some msg] makes the
    call fail with that error (connectivity, serialisation, duplicate key,
    ...), [None] or an exhausted list lets it go through. *)
Definition driver_fault : M (option error) := λ w,
  match faults w with
  | [] => (Done None, w)
  | f :: fs => (Done (ErrorNew <$> f), set_faults fs w)
  end.

(** [time.Now()]: read the clock, which then advances. *)
Definition time_Now : M nat := λ w, (Done (clock w), set_clock (S (clock w)) w).

(** [f == nil] for a function value. *)
Definition isnil (f : option MigrationFn) : bool :=
  match f with
  | None => true
  | Some _ => false
  end.

(** Calling a migration action on the database handle; calling a [nil]
    function panics. *)
Definition call (ev : Event) (f : option MigrationFn) : M (option error) := λ w,
  match f with
  | None => (Panic "invalid memory address or nil pointer dereference", w)
  | Some fn =>
    let '(d, err) := fn (db w) in
    (Done err, set_trace (trace w ++ [ev]) (set_db d w))
  end.

(** The elements of a slice; a [nil] slice has none. *)
Definition elems (s : loc) : M (list Migration) :=
  gets (λ w, default [] (heap w !! s)).

(** ** The ledger collection *)

(** The document [FindOne] selects with an empty filter and the sort
    [{_id: -1}]: the one with the greatest id ([_id] is unique in the
    store; on this list model the later of two equal ids is taken). *)
Fixpoint latest (l : list Version) : option Version :=
  match l with
  | [] => None
  | v :: l' =>
    match latest l' with
    | None => Some v
    | Some u => if (ID u <? ID v)%N then Some v else Some u
    end
  end.

(** [*mongo.SingleResult]: the error of the query and the raw document. *)
Record SingleResult : Type := mkSingleResult {
  Err : option error;
  raw : option Version
}.

(** [Collection.FindOne(ctx, bson.D{{}}, options.FindOne().SetSort({_id: -1}))].
    The world holds one collection, the one the migrator at work is bound
    to: the collection is not an argument, and nothing here tells two
    migrators bound to different collections apart. *)
Definition FindOne_latest : M SingleResult :=
  f ← driver_fault;
  match f with
  | Some e => mret (mkSingleResult (Some e) None)
  | None =>
    l ← gets ledger;
    match latest l with
    | None => mret (mkSingleResult (Some ErrNoDocuments) None)
    | Some d => mret (mkSingleResult None (Some d))
    end
  end.

(** [result.Decode(&rec)]: the error, or the decoded record. *)
Definition Decode (r : SingleResult) : M (error + Version) :=
  match Err r, raw r with
  | Some e, _ => mret (inl e)
  | None, None => mret (inl ErrNoDocuments)
  | None, Some d =>
    f ← driver_fault;
    match f with
    | Some e => mret (inl e)
    | None => mret (inr d)
    end
  end.

(** [Collection.InsertOne(ctx, rec)]: the document is appended, to the one
    collection the world holds. *)
Definition InsertOne (rec : Version) : M (option error) :=
  f ← driver_fault;
  match f with
  | Some e => mret (Some e)
  | None => modify (λ w, set_ledger (ledger w ++ [rec]) w);; mret None
  end.

(** ** migration.go: Migrations *)

(** [sort.Slice(s, less)], as an insertion sort. [sort.Slice] promises a
    sorted permutation and no order among elements that [less] does not
    separate; with distinct ids there is only one such result. *)
Fixpoint sort_insert {A : Type} (less : A → A → bool) (x : A) (l : list A) : list A :=
  match l with
  | [] => [x]
  | y :: l' => if less y x then y :: sort_insert less x l' else x :: l
  end.

Definition sort_Slice {A : Type} (less : A → A → bool) (l : list A) : list A :=
  foldr (sort_insert less) [] l.

Definition less_asc (a b : Migration) : bool := (ID (MVersion a) <? ID (MVersion b))%N.
Definition less_desc (a b : Migration) : bool := (ID (MVersion b) <? ID (MVersion a))%N.

(** The order [Sort(direction...)] leaves the elements in. *)
Definition sorted_by (direction : list Z) (ms : list Migration) : list Migration :=
  match direction with
  | d :: _ => if (d =? -1)%Z then sort_Slice less_desc ms else sort_Slice less_asc ms
  | [] => sort_Slice less_asc ms
  end.

(** [func (ms Migrations) Sort(direction ...int)]: sorts the backing array
    of [ms] in place. *)
Definition Migrations_Sort (ms : loc) (direction : list Z) : M unit :=
  modify (λ w,
    match heap w !! ms with
    | Some a => set_heap (<[ms := sorted_by direction a]> (heap w)) w
    | None => w
    end).

(** [func (ms Migrations) ContainsVersion(version uint) bool]. *)
Fixpoint contains (version : N) (l : list Migration) : bool :=
  match l with
  | [] => false
  | m :: l' => if (ID (MVersion m) =? version)%N then true else contains version l'
  end.

Definition Migrations_ContainsVersion (ms : loc) (version : N) : M bool :=
  l ← elems ms; mret (contains version l).

(** ** versions.go *)

(** [type versions struct { collection *mongo.Collection }]: the handle
    keeps the name of the collection; [ledger] is its content. *)
Record versions : Type := mkVersions { collection : string }.

Definition NewVersions (collection : string) : versions := mkVersions collection.

(** [Set], [Current] and [Delete] are [panic("implement me")]. *)
Definition versions_Set (v : versions) (version : Version) : M (option error) :=
  panic "implement me".

Definition versions_Current (v : versions) : M (option Version * option error) :=
  panic "implement me".

Definition versions_Delete (v : versions) (id : Z) : M (option error) :=
  panic "implement me".

(** [func (v *versions) Get(ctx, id int)]: the body never reads [id]; it
    finds the record with the greatest id and returns the triple
    (version, description, error). *)
Definition versions_Get (v : versions) (id : Z) : M (N * string * option error) :=
  result ← FindOne_latest;
  let err := Err result in
  match err with
  | Some ErrNoDocuments => mret (0%N, "", None)
  | Some e => mret (0%N, "", Some e)
  | None =>
    d ← Decode result;
    match d with
    | inl e => mret (0%N, "", Some e)
    | inr rec => mret (ID rec, Description rec, None)
    end
  end.

(** [type Versions interface { Set; Current; Get; Delete }]. *)
Class Versions (T : Type) : Type := {
  Set_ : T → Version → M (option error);
  Current : T → M (option Version * option error);
  Get : T → Z → M (N * string * option error);
  Delete : T → Z → M (option error)
}.

Global Instance versions_Versions : Versions versions := {
  Set_ := versions_Set;
  Current := versions_Current;
  Get := versions_Get;
  Delete := versions_Delete
}.

(** ** migrate.go *)

Definition AllAvailable : Z := -1.
Definition _defaultMigrationsCollection : string := "migrations".

(** [type migrator struct { versions Versions; migrations Migrations }];
    the field [versions] is [mversions], and the only implementation of
    the interface is [*versions]. *)
Record migrator : Type := mkMigrator {
  mversions : versions;
  migrations : loc
}.

(** [type config struct { db; collectionName }]; the database handle is
    the world itself. *)
Record config : Type := mkConfig { collectionName : string }.

Definition Option : Type := config → config.

Definition WithMigrationsCollection (name : string) : Option :=
  λ c, mkConfig name.

(** [slices.Clone(s)]: a fresh backing array holding the same elements. *)
Definition slices_Clone (s : loc) : M loc := λ w,
  let l := fresh (dom (heap w)) in
  (Done l, set_heap (<[l := default [] (heap w !! s)]> (heap w)) w).

(** [func NewMigrate(db, migrations, options...)].  The handle [db] and the
    options are taken to be non-nil: with a nil handle the source panics
    at [db.Collection], with a nil option at its call, and neither case is
    modelled. *)
Definition NewMigrate (migrations : loc) (options : list Option) : M migrator :=
  let cfg := foldl (λ c o, o c) (mkConfig _defaultMigrationsCollection) options in
  ms ← slices_Clone migrations;
  mret (mkMigrator (NewVersions (collectionName cfg)) ms).

(** [func (m *migrator) Version(ctx)]: delegates to the ledger interface. *)
Definition migrator_Version (m : migrator) : M (option Version * option error) :=
  Current (mversions m).

(** [func (m *migrator) SetVersion(ctx, version, description)]. *)
Definition migrator_SetVersion (m : migrator) (version : N) (description : string)
  : M (option error) :=
  now ← time_Now;
  let rec := mkVersion version description now in
  err ← InsertOne rec;
  match err with
  | Some e => mret (Some e)
  | None => mret None
  end.

(** Modelled from the spec: [CurrentVersion], which [Up] and [Down] call
    and the source does not define.  "Read current version v from the
    Ledger (no version ⇒ v = 0)", the current version being "the id of the
    record with the greatest id among all ledger entries"; a failure of
    the store "propagates as a store-access error". *)
Definition migrator_CurrentVersion (m : migrator) : M (N * string * option error) :=
  found ← FindOne_latest;
  match Err found with
  | Some ErrNoDocuments => mret (0%N, "", None)
  | Some e => mret (0%N, "", Some e)
  | None =>
    d ← Decode found;
    match d with
    | inl e => mret (0%N, "", Some e)
    | inr rec => mret (ID rec, Description rec, None)
    end
  end.

(** [if n <= 0 || n > len(m.migrations) { n = len(m.migrations) }]. *)
Definition clamp (n : Z) (len : nat) : Z :=
  if (n <=? 0)%Z || (Z.of_nat len <? n)%Z then Z.of_nat len else n.

(** The [for _, mn := range m.migrations] loop of [Up]; [n] is decremented
    before the migration is looked at. *)
Fixpoint Up_range (m : migrator) (curVer : N) (n : Z) (ms : list Migration)
  : M (option error) :=
  match ms with
  | [] => mret None
  | mn :: rest =>
    if (n <=? 0)%Z then mret None
    else
      let n := (n - 1)%Z in
      if (ID (MVersion mn) <=? curVer)%N || isnil (Up mn) then Up_range m curVer n rest
      else
        err ← call (CallUp (ID (MVersion mn))) (Up mn);
        match err with
        | Some e => mret (Some (Wrapf e "migrate on version '%d'" curVer))
        | None =>
          err ← migrator_SetVersion m (ID (MVersion mn)) (Description (MVersion mn));
          match err with
          | Some e => mret (Some (Wrapf e "set version '%d' info" curVer))
          | None => Up_range m curVer n rest
          end
        end
  end.

(** [func (m *migrator) Up(ctx, n)]. *)
Definition migrator_Up (m : migrator) (n : Z) : M (option error) :=
  '(curVer, _, err) ← migrator_CurrentVersion m;
  match err with
  | Some e => mret (Some e)
  | None =>
    ms ← elems (migrations m);
    let n := clamp n (length ms) in
    Migrations_Sort (migrations m) [];;
    ms ← elems (migrations m);
    Up_range m curVer n ms
  end.

(** [if i == 0 { Migration{Version: 0} } else { m.migrations[i-1] }];
    indexing outside the slice panics. *)
Definition index_before (all : list Migration) (i : nat) : M Migration :=
  match i with
  | O => mret Migration_zero
  | S j =>
    match all !! j with
    | Some p => mret p
    | None => panic "index out of range"
    end
  end.

(** The first loop of [Down], [for _, mn := range m.migrations], over the
    slice sorted descending.  [all] is the whole slice and [i] the index of
    the iteration: the body reads an [i] that the source does not declare,
    to compute a [prev] that nothing uses; the record written carries
    [mn]'s own id and description.  The loop ends with the [n] it leaves,
    or with the error [Down] returns. *)
Fixpoint Down_range (m : migrator) (curVer : N) (all : list Migration) (i : nat)
    (n : Z) (ms : list Migration) : M (Z + error) :=
  match ms with
  | [] => mret (inl n)
  | mn :: rest =>
    if (n <=? 0)%Z then mret (inl n)
    else
      let n := (n - 1)%Z in
      if (ID (MVersion mn) <=? curVer)%N || isnil (Down mn)
      then Down_range m curVer all (S i) n rest
      else
        err ← call (CallDown (ID (MVersion mn))) (Down mn);
        match err with
        | Some e => mret (inr (Wrapf e "migrate on version '%d'" curVer))
        | None =>
          prev ← index_before all i;
          err ← migrator_SetVersion m (ID (MVersion mn)) (Description (MVersion mn));
          match err with
          | Some e => mret (inr (Wrapf e "set version '%d' info" curVer))
          | None => Down_range m curVer all (S i) n rest
          end
        end
  end.

Section Down.

(** [currentVersion] is read by the second loop of [Down] and declared
    nowhere in the source: it is a parameter here. *)
Variable currentVersion : N.

(** The second loop of [Down],
    [for i, p := len(m.migrations)-1, 0; i >= 0 && p < n; i--];
    [k] is [i + 1], so that [k = 0] is [i < 0]. *)
Fixpoint Down_for (m : migrator) (n : Z) (all : list Migration) (k : nat) (p : Z)
  : M (option error) :=
  match k with
  | O => mret None
  | S i =>
    if (p <? n)%Z then
      match all !! i with
      | None => panic "index out of range"
      | Some migration =>
        if (currentVersion <? ID (MVersion migration))%N || isnil (Down migration)
        then Down_for m n all i p
        else
          let p := (p + 1)%Z in
          err ← call (CallDown (ID (MVersion migration))) (Down migration);
          match err with
          | Some e => mret (Some e)
          | None =>
            prevMigration ← index_before all i;
            err ← migrator_SetVersion m (ID (MVersion prevMigration))
                    (Description (MVersion prevMigration));
            match err with
            | Some e => mret (Some e)
            | None => Down_for m n all i p
            end
          end
      end
    else mret None
  end.

(** [func (m *migrator) Down(ctx, n)]. *)
Definition migrator_Down (m : migrator) (n : Z) : M (option error) :=
  '(curVer, _, err) ← migrator_CurrentVersion m;
  match err with
  | Some e => mret (Some e)
  | None =>
    ms ← elems (migrations m);
    let n := clamp n (length ms) in
    Migrations_Sort (migrations m) [(-1)%Z];;
    ms ← elems (migrations m);
    r ← Down_range m curVer ms 0 n ms;
    match r with
    | inr e => mret (Some e)
    | inl n => Down_for m n ms (length ms) 0
    end
  end.

End Down.

(** * Notions used to state the properties *)

(** The id of a migration, and the current version a ledger records: the
    greatest id, 0 for an empty ledger. *)
Definition mid (mn : Migration) : N := ID (MVersion mn).

Definition current_id (l : list Version) : N :=
  match latest l with
  | Some v => ID v
  | None => 0%N
  end.

Definition asc (a b : Migration) : Prop := (mid a ≤ mid b)%N.
Definition desc (a b : Migration) : Prop := (mid b ≤ mid a)%N.

(** The order a direction asks for. *)
Definition ordered (direction : list Z) : relation Migration :=
  match direction with
  | d :: _ => if (d =? -1)%Z then desc else asc
  | [] => asc
  end.

(** What a ledger lookup reports for a ledger [l]: id and description of
    the record with the greatest id, zero values when there is none. *)
Definition reported (l : list Version) : N * string :=
  match latest l with
  | Some v => (ID v, Description v)
  | None => (0%N, "")
  end.

(** The migrations a migrator holds, and the world once its slice is
    sorted. *)
Definition own (m : migrator) (w : World) : list Migration :=
  default [] (heap w !! migrations m).

Definition sorted_world (m : migrator) (direction : list Z) (w : World) : World :=
  (Migrations_Sort (migrations m) direction w).2.

(** The body of the loop of [Up] for a migration that is not skipped:
    the forward action, then the ledger write. *)
Definition Up_step (m : migrator) (curVer : N) (mn : Migration) : M (option error) :=
  err ← call (CallUp (ID (MVersion mn))) (Up mn);
  match err with
  | Some e => mret (Some (Wrapf e "migrate on version '%d'" curVer))
  | None =>
    err ← migrator_SetVersion m (ID (MVersion mn)) (Description (MVersion mn));
    match err with
    | Some e => mret (Some (Wrapf e "set version '%d' info" curVer))
    | None => mret None
    end
  end.

(** The call [Up(n)] started in [w0] has read the version [cv] and its
    loop, with budget left, comes to the migration [mn] in the world [w1]. *)
Definition Up_reaches (m : migrator) (n : Z) (w0 : World) (cv : N)
    (mn : Migration) (w1 : World) : Prop :=
  ∃ (d : string) (fs : list (option string)) (pre post : list Migration),
    migrator_CurrentVersion m w0 = (Done (cv, d, None), set_faults fs w0) ∧
    sorted_by [] (own m w0) = pre ++ mn :: post ∧
    (Z.of_nat (length pre) < clamp n (length (own m w0)))%Z ∧
    Up_range m cv (clamp n (length (own m w0))) pre (sorted_world m [] (set_faults fs w0))
      = (Done None, w1).

(** The migrations of [ms] that the loop of [Up] does not skip when the
    version read is [cv]. *)
Definition pending (cv : N) (ms : list Migration) : list Migration :=
  List.filter (λ mn, negb ((mid mn <=? cv)%N || isnil (Up mn))) ms.

(** The database after the forward actions of [ms], in order. *)
Definition forward (ms : list Migration) (d : DB) : DB :=
  foldl (λ d mn, match Up mn with Some up => (up d).1 | None => d end) d ms.

(** Every forward action of [ms] succeeds, whatever the database. *)
Definition forward_succeeds (ms : list Migration) : Prop :=
  ∀ mn up d, mn ∈ ms → Up mn = Some up → (up d).2 = None.

(** A call made on a migrator after its construction. *)
Inductive Call : Type :=
| DoUp (n : Z)
| DoDown (n : Z).

Definition run_call (currentVersion : N) (m : migrator) (c : Call) : M (option error) :=
  match c with
  | DoUp n => migrator_Up m n
  | DoDown n => migrator_Down currentVersion m n
  end.

(** The world after a sequence of calls, each one made whatever the one
    before returned. *)
Fixpoint run_calls (currentVersion : N) (m : migrator) (cs : list Call) (w : World)
  : World :=
  match cs with
  | [] => w
  | c :: cs' => run_calls currentVersion m cs' (run_call currentVersion m c w).2
  end.

(** ** Concrete inputs *)

(** An action that succeeds without changing the database, and one that
    fails. *)
Definition noop : MigrationFn := λ d, (d, None).
Definition failing : MigrationFn := λ d, (d, Some (ErrorNew "boom")).

(** The migration with a given id and description whose two actions are
    present and succeed. *)
Definition mig (id : N) (description : string) : Migration :=
  mkMigration (mkVersion id description 0) (Some noop) (Some noop).

(** v3 with a forward action that fails. *)
Definition v3_failing : Migration :=
  mkMigration (mkVersion 3 "three" 0) (Some failing) (Some noop).

(** The set of the scenario: v1, v3 and v5, registered out of order. *)
Definition v135 : list Migration := [mig 5 "five"; mig 1 "one"; mig 3 "three"].

(** A world whose only slice, at address 1, is the caller's [ms]; the
    ledger is [l] and no driver failure is pending. *)
Definition world (ms : list Migration) (l : list Version) (d : DB) : World :=
  mkWorld {[ 1%positive := ms ]} l d 0 [] [].

(** The same with the outcomes [fs] of the driver calls to come. *)
Definition world_with (fs : list (option string)) (ms : list Migration)
    (l : list Version) (d : DB) : World :=
  mkWorld {[ 1%positive := ms ]} l d 0 fs [].

(** A migrator built by [NewMigrate] from the caller's slice, then used. *)
Definition session {A : Type} (use : migrator → M A) : M A :=
  m ← NewMigrate 1%positive []; use m.

(** A migrator on the slice at address 1 itself. *)
Definition migrator1 : migrator := mkMigrator (NewVersions "migrations") 1%positive.

(** [Up(AllAvailable)] on {v3, v1} with version 1 recorded: the loop skips
    v1 and comes to v3 in [before_v3]; the step leaves [after_v3]. *)
Definition before_v3 (d : DB) : World :=
  mkWorld {[ 1%positive := [mig 1 "one"; mig 3 "three"] ]} [mkVersion 1 "one" 0] d 0 [] [].

Definition after_v3 (d : DB) : World :=
  mkWorld {[ 1%positive := [mig 1 "one"; mig 3 "three"] ]}
    [mkVersion 1 "one" 0; mkVersion 3 "three" 0] d 1 [] [CallUp 3%N].


(** * Properties *)

(** ** The greatest-id lookup *)

Lemma latest_nil_inv (l : list Version) : latest l = None → l = [].
Proof.
  destruct l as [|v l']; [done|]. simpl.
  destruct (latest l') as [u|]; [|done]. by destruct (ID u <? ID v)%N.
Qed.

Lemma latest_bound (l : list Version) (u : Version) :
  latest l = Some u → Forall (λ x, (ID x ≤ ID u)%N) l.
Proof.
  revert u. induction l as [|v l' IH]; intros u; simpl; [constructor|].
  destruct (latest l') as [t|] eqn:Hl.
  - destruct (ID t <? ID v)%N eqn:Hlt; intros [= <-].
    + apply N.ltb_lt in Hlt. constructor; [lia|].
      eapply Forall_impl; [by apply IH|]. simpl. intros; lia.
    + apply N.ltb_ge in Hlt. constructor; [lia|]. by apply IH.
  - intros [= <-]. apply latest_nil_inv in Hl as ->.
    constructor; [lia|constructor].
Qed.

Lemma latest_elem (l : list Version) (u : Version) : latest l = Some u → u ∈ l.
Proof.
  revert u. induction l as [|v l' IH]; intros u; simpl; [done|].
  destruct (latest l') as [t|].
  - destruct (ID t <? ID v)%N; intros [= <-]; [left|right; by apply IH].
  - intros [= <-]. left.
Qed.

Lemma current_id_bound (l : list Version) :
  Forall (λ x, (ID x ≤ current_id l)%N) l.
Proof.
  unfold current_id. destruct (latest l) as [u|] eqn:Hl.
  - by apply latest_bound.
  - apply latest_nil_inv in Hl as ->. constructor.
Qed.

(** Appending records never lowers the version a ledger records. *)
Lemma current_id_app (l l' : list Version) :
  (current_id l ≤ current_id (l ++ l'))%N.
Proof.
  unfold current_id at 1. destruct (latest l) as [u|] eqn:Hl; [|lia].
  apply latest_elem in Hl.
  pose proof (current_id_bound (l ++ l')) as Hb. rewrite Forall_forall in Hb.
  apply Hb, elem_of_app. by left.
Qed.

(** A record appended to the ledger is the one [FindOne] selects as soon
    as no record already there has a greater id. *)
Lemma latest_snoc (l : list Version) (v : Version) :
  Forall (λ x, (ID x ≤ ID v)%N) l → latest (l ++ [v]) = Some v.
Proof.
  induction 1 as [|x l' Hx _ IH]; simpl; [done|].
  rewrite IH. destruct (ID v <? ID x)%N eqn:Hlt; [|done].
  apply N.ltb_lt in Hlt. lia.
Qed.

(** ** Sorting *)

Section sort_Slice.

Context {A : Type} (less : A → A → bool).

Lemma sort_insert_perm (x : A) (l : list A) : sort_insert less x l ≡ₚ x :: l.
Proof.
  induction l as [|y l' IH]; simpl; [done|].
  destruct (less y x); [|done]. rewrite IH. apply Permutation_swap.
Qed.

Lemma sort_Slice_perm (l : list A) : sort_Slice less l ≡ₚ l.
Proof.
  induction l as [|x l' IH]; simpl; [done|].
  by rewrite sort_insert_perm, IH.
Qed.

(** Sortedness for a relation [R] that holds where [less] fails the
    other way round, as [≤] does for [<]. *)
Context (R : relation A) `{!Transitive R}.
Hypothesis less_R : ∀ a b, less a b = true → R a b.
Hypothesis not_less_R : ∀ a b, less a b = false → R b a.

Lemma sort_insert_sorted (x : A) (l : list A) :
  StronglySorted R l → StronglySorted R (sort_insert less x l).
Proof.
  induction 1 as [|y l' Hl IH Hy]; simpl.
  - repeat constructor.
  - destruct (less y x) eqn:Hyx.
    + constructor; [done|]. rewrite sort_insert_perm.
      constructor; [by apply less_R|done].
    + apply not_less_R in Hyx. constructor; [by constructor|].
      constructor; [done|]. eapply Forall_impl; [exact Hy|].
      intros z Hz. by trans y.
Qed.

Lemma sort_Slice_sorted (l : list A) : StronglySorted R (sort_Slice less l).
Proof.
  induction l as [|x l' IH]; simpl; [constructor|].
  by apply sort_insert_sorted.
Qed.

End sort_Slice.

Global Instance asc_trans : Transitive asc.
Proof. unfold asc. intros a b c ??. lia. Qed.

Global Instance desc_trans : Transitive desc.
Proof. unfold desc. intros a b c ??. lia. Qed.

Lemma sorted_by_perm (direction : list Z) (ms : list Migration) :
  sorted_by direction ms ≡ₚ ms.
Proof.
  unfold sorted_by. destruct direction as [|d ?]; [|destruct (d =? -1)%Z];
    apply sort_Slice_perm.
Qed.

Lemma sorted_by_asc (ms : list Migration) : StronglySorted asc (sorted_by [] ms).
Proof.
  apply sort_Slice_sorted; [apply _|..]; unfold less_asc, asc, mid; intros a b.
  - rewrite N.ltb_lt. lia.
  - rewrite N.ltb_ge. lia.
Qed.

Lemma sorted_by_desc (ms : list Migration) :
  StronglySorted desc (sorted_by [(-1)%Z] ms).
Proof.
  apply sort_Slice_sorted; [apply _|..]; unfold less_desc, desc, mid; intros a b.
  - rewrite N.ltb_lt. lia.
  - rewrite N.ltb_ge. lia.
Qed.

(** ** The environment and the ledger operations *)

Lemma bind_run {A B : Type} (c : M A) (k : A → M B) (w : World) :
  (c ≫= k) w =
  match c w with
  | (Done a, w') => k a w'
  | (Panic msg, w') => (Panic msg, w')
  end.
Proof. reflexivity. Qed.

Lemma reported_id (l : list Version) : fst (reported l) = current_id l.
Proof. unfold reported, current_id. by destruct (latest l). Qed.

(** The lookup never panics, touches nothing but the pending driver
    outcomes and, when it reports no error, reports the ledger's record
    with the greatest id. *)
Lemma CurrentVersion_spec (m : migrator) (w : World) :
  ∃ v d err fs,
    migrator_CurrentVersion m w = (Done (v, d, err), set_faults fs w) ∧
    (err = None → (v, d) = reported (ledger w)).
Proof.
  unfold migrator_CurrentVersion, FindOne_latest, reported.
  rewrite !bind_run. unfold driver_fault.
  destruct w as [h l d c fs t]; simpl.
  destruct fs as [|[msg|] fs]; simpl; rewrite ?bind_run; simpl.
  - destruct (latest l) as [u|]; simpl; [|by exists 0%N, "", None, []].
    by exists (ID u), (Description u), None, [].
  - by exists 0%N, "", (Some (ErrorNew msg)), fs.
  - destruct (latest l) as [u|]; simpl; [|by exists 0%N, "", None, fs].
    unfold Decode; simpl. rewrite bind_run; simpl.
    destruct fs as [|[msg|] fs]; simpl.
    + by exists (ID u), (Description u), None, [].
    + by exists 0%N, "", (Some (ErrorNew msg)), fs.
    + by exists (ID u), (Description u), None, fs.
Qed.

(** With no driver failure pending the lookup succeeds and changes
    nothing. *)
Lemma CurrentVersion_quiet (m : migrator) (w : World) :
  faults w = [] →
  migrator_CurrentVersion m w =
    (Done (fst (reported (ledger w)), snd (reported (ledger w)), None), w).
Proof.
  unfold migrator_CurrentVersion, FindOne_latest, reported.
  rewrite !bind_run. unfold driver_fault.
  destruct w as [h l d c fs t]; simpl. intros ->; simpl.
  rewrite bind_run; simpl.
  destruct (latest l) as [u|]; simpl; [|done].
  unfold Decode; simpl. by rewrite bind_run.
Qed.

(** The body of [versions.Get] is this lookup, whatever the [id]. *)
Lemma versions_Get_CurrentVersion (m : migrator) (id : Z) :
  versions_Get (mversions m) id = migrator_CurrentVersion m.
Proof. reflexivity. Qed.

(** [SetVersion] either fails and leaves the ledger as it was, or appends
    one record with the id and description it was given. *)
Lemma SetVersion_spec (m : migrator) (id : N) (d : string) (w w' : World)
    (r : outcome (option error)) :
  migrator_SetVersion m id d w = (r, w') →
  heap w' = heap w ∧ db w' = db w ∧ trace w' = trace w ∧
  ((∃ e, r = Done (Some e) ∧ ledger w' = ledger w) ∨
   (r = Done None ∧ ledger w' = ledger w ++ [mkVersion id d (clock w)])).
Proof.
  unfold migrator_SetVersion, InsertOne, time_Now, driver_fault.
  rewrite !bind_run. destruct w as [h l dd c fs t]; simpl.
  destruct fs as [|[msg|] fs]; simpl; intros [= <- <-]; simpl;
    repeat split; try done; eauto.
Qed.

(** Sorting touches the backing array of the slice it is given, and
    nothing else. *)
Lemma Sort_spec (s : loc) (direction : list Z) (w : World) :
  ∃ w', Migrations_Sort s direction w = (Done tt, w') ∧
    ledger w' = ledger w ∧ db w' = db w ∧ trace w' = trace w ∧
    faults w' = faults w ∧ clock w' = clock w ∧
    default [] (heap w' !! s) = sorted_by direction (default [] (heap w !! s)) ∧
    (∀ l, l ≠ s → heap w' !! l = heap w !! l).
Proof.
  unfold Migrations_Sort, modify. eexists; split; [done|].
  destruct (heap w !! s) as [a|] eqn:Hs; simpl.
  - rewrite lookup_insert_eq; simpl. repeat split; try done.
    intros l ?. by rewrite lookup_insert_ne.
  - rewrite Hs; simpl. repeat split; try done.
    unfold sorted_by. destruct direction as [|z ?]; [done|]. by destruct (z =? -1)%Z.
Qed.

Lemma call_run (ev : Event) (fn : MigrationFn) (w : World) :
  call ev (Some fn) w =
    (Done (fn (db w)).2, set_trace (trace w ++ [ev]) (set_db (fn (db w)).1 w)).
Proof. unfold call. by destruct (fn (db w)). Qed.

Lemma isnil_false (f : option MigrationFn) : isnil f = false → ∃ fn, f = Some fn.
Proof. destruct f; [eauto|done]. Qed.

(** ** The loop of [Up] *)

Lemma Up_range_break (m : migrator) (cv : N) (n : Z) (ms : list Migration) (w : World) :
  (n ≤ 0)%Z → Up_range m cv n ms w = (Done None, w).
Proof.
  intros Hn. destruct ms as [|mn rest]; simpl; [done|].
  by rewrite (proj2 (Z.leb_le n 0) Hn).
Qed.

(** What a run of the loop leaves behind: it never panics and never
    touches the slices; the actions it called are, in order, forward
    actions of some of the migrations it ranged over, all with an id above
    [cv]; and the records it appended carry, one for one and in order,
    the ids of the first actions it called. *)
Lemma Up_range_spec (m : migrator) (cv : N) (ms : list Migration) :
  ∀ (n : Z) (w w' : World) (r : outcome (option error)),
    Up_range m cv n ms w = (r, w') →
    heap w' = heap w ∧ (∃ err, r = Done err) ∧
    ∃ (ids : list N) (recs : list Version),
      trace w' = trace w ++ (CallUp <$> ids) ∧
      ledger w' = ledger w ++ recs ∧
      ids `sublist_of` (mid <$> ms) ∧
      ID <$> recs = take (length recs) ids ∧
      Forall (λ i, (cv < i)%N) ids.
Proof.
  induction ms as [|mn rest IH]; intros n w w' r; simpl.
  { intros [= <- <-]. split; [done|]. split; [by eexists|].
    exists [], []. rewrite !app_nil_r. by repeat split. }
  destruct (n <=? 0)%Z.
  { intros [= <- <-]. split; [done|]. split; [by eexists|].
    exists [], []. rewrite !app_nil_r. repeat split; try done.
    apply sublist_nil_l. }
  destruct (ID (MVersion mn) <=? cv)%N eqn:Hid; simpl.
  { intros H. apply IH in H as (Hh & Hr & ids & recs & ? & ? & ? & ? & ?).
    split; [done|]. split; [done|]. exists ids, recs.
    repeat split; try done. by apply sublist_cons. }
  destruct (isnil (Up mn)) eqn:Hnil; simpl.
  { intros H. apply IH in H as (Hh & Hr & ids & recs & ? & ? & ? & ? & ?).
    split; [done|]. split; [done|]. exists ids, recs.
    repeat split; try done. by apply sublist_cons. }
  apply isnil_false in Hnil as [up ->]. apply N.leb_gt in Hid.
  rewrite bind_run, call_run. destruct (up (db w)) as [d [e|]]; simpl.
  { intros [= <- <-]. split; [done|]. split; [by eexists|].
    exists [mid mn], []. rewrite app_nil_r. repeat split; try done.
    - apply sublist_skip, sublist_nil_l.
    - by repeat constructor. }
  rewrite bind_run.
  destruct (migrator_SetVersion _ _ _ _) as [r1 w1] eqn:Hset.
  apply SetVersion_spec in Hset as (Hh1 & _ & Ht1 & [(e & -> & Hl1)|[-> Hl1]]); simpl in *.
  { intros [= <- <-]. split; [done|]. split; [by eexists|].
    exists [mid mn], []. rewrite app_nil_r. repeat split; try done.
    - apply sublist_skip, sublist_nil_l.
    - by repeat constructor. }
  intros H. apply IH in H as (Hh & Hr & ids & recs & Ht & Hl & ? & Hrec & ?).
  split; [congruence|]. split; [done|].
  exists (mid mn :: ids), (mkVersion (mid mn) (Description (MVersion mn)) (clock w) :: recs).
  rewrite Ht, Ht1, Hl, Hl1, <-!app_assoc. simpl. repeat split; try done;
    first [by apply sublist_skip | by f_equal | by constructor].
Qed.

(** Ranging over [pre ++ post] is ranging over [pre] and, unless that
    returned an error, going on over [post] with what is left of [n]. *)
Lemma Up_range_app (m : migrator) (cv : N) (pre post : list Migration) :
  ∀ (n : Z) (w : World),
    Up_range m cv n (pre ++ post) w =
    match Up_range m cv n pre w with
    | (Done None, w1) => Up_range m cv (n - Z.of_nat (length pre)) post w1
    | other => other
    end.
Proof.
  induction pre as [|mn rest IH]; intros n w; simpl.
  { by rewrite Z.sub_0_r. }
  destruct (n <=? 0)%Z eqn:Hn.
  { apply Z.leb_le in Hn. simpl. symmetry. apply Up_range_break. lia. }
  replace (n - Z.of_nat (S (length rest)))%Z
    with (n - 1 - Z.of_nat (length rest))%Z by lia.
  destruct (_ || _); [apply IH|].
  rewrite !bind_run. destruct (call _ _ w) as [[[e|]|msg] w1]; try done.
  rewrite !bind_run. by destruct (migrator_SetVersion _ _ _ w1) as [[[e|]|msg] w2].
Qed.

(** ** The loops of [Down] *)

Lemma index_before_run (all : list Migration) (i : nat) (w : World) :
  i ≤ length all → ∃ p, index_before all i w = (Done p, w).
Proof.
  destruct i as [|j]; simpl; [by eexists|]. intros Hj.
  destruct (lookup_lt_is_Some_2 all j) as [p ->]; [lia|]. by eexists.
Qed.

(** The first loop: as for [Up], with backward actions; the index it
    reads stays inside the slice, so it does not panic; and when [n] does
    not exceed the number of elements ranged over, the [n] it leaves is
    not positive. *)
Lemma Down_range_spec (m : migrator) (cv : N) (all : list Migration)
    (ms : list Migration) :
  ∀ (i : nat) (n : Z) (w w' : World) (r : outcome (Z + error)),
    i + length ms ≤ length all →
    Down_range m cv all i n ms w = (r, w') →
    heap w' = heap w ∧
    (∃ res, r = Done res ∧
       ∀ n', res = inl n' → (n ≤ Z.of_nat (length ms))%Z → (n' ≤ 0)%Z) ∧
    ∃ (ids : list N) (recs : list Version),
      trace w' = trace w ++ (CallDown <$> ids) ∧
      ledger w' = ledger w ++ recs ∧
      ids `sublist_of` (mid <$> ms) ∧
      ID <$> recs = take (length recs) ids ∧
      Forall (λ i, (cv < i)%N) ids.
Proof.
  induction ms as [|mn rest IH]; intros i n w w' r Hi; simpl.
  { intros [= <- <-]. split; [done|]. split.
    { eexists; split; [done|]. intros ? [= <-]. simpl. lia. }
    exists [], []. rewrite !app_nil_r. by repeat split. }
  destruct (n <=? 0)%Z eqn:Hn.
  { intros [= <- <-]. split; [done|]. split.
    { eexists; split; [done|]. intros ? [= <-] _. by apply Z.leb_le. }
    exists [], []. rewrite !app_nil_r. repeat split; try done.
    apply sublist_nil_l. }
  simpl in Hi.
  assert (∀ w w' r, Down_range m cv all (S i) (n - 1) rest w = (r, w') →
    heap w' = heap w ∧
    (∃ res, r = Done res ∧
       ∀ n', res = inl n' → (n ≤ Z.of_nat (S (length rest)))%Z → (n' ≤ 0)%Z) ∧
    ∃ ids recs,
      trace w' = trace w ++ (CallDown <$> ids) ∧
      ledger w' = ledger w ++ recs ∧
      ids `sublist_of` (mid <$> rest) ∧
      ID <$> recs = take (length recs) ids ∧
      Forall (λ i, (cv < i)%N) ids) as IH'.
  { intros v v' q H. apply IH in H as (? & (res & -> & Hres) & ?); [|lia].
    split; [done|]. split; [|done]. eexists; split; [done|].
    intros n' ? ?. apply Hres; [done|lia]. }
  clear IH.
  destruct (ID (MVersion mn) <=? cv)%N eqn:Hid; simpl.
  { intros H. apply IH' in H as (Hh & Hr & ids & recs & ? & ? & ? & ? & ?).
    split; [done|]. split; [done|]. exists ids, recs.
    repeat split; try done. by apply sublist_cons. }
  destruct (isnil (Down mn)) eqn:Hnil; simpl.
  { intros H. apply IH' in H as (Hh & Hr & ids & recs & ? & ? & ? & ? & ?).
    split; [done|]. split; [done|]. exists ids, recs.
    repeat split; try done. by apply sublist_cons. }
  apply isnil_false in Hnil as [down ->]. apply N.leb_gt in Hid.
  rewrite bind_run, call_run. destruct (down (db w)) as [d [e|]]; simpl.
  { intros [= <- <-]. split; [done|]. split; [by eexists|].
    exists [mid mn], []. rewrite app_nil_r. repeat split; try done.
    - apply sublist_skip, sublist_nil_l.
    - by repeat constructor. }
  rewrite bind_run.
  destruct (index_before_run all i (set_trace (trace w ++ [CallDown (ID (MVersion mn))])
    (set_db d w))) as [prev ->]; [lia|].
  rewrite bind_run.
  destruct (migrator_SetVersion _ _ _ _) as [r1 w1] eqn:Hset.
  apply SetVersion_spec in Hset as (Hh1 & _ & Ht1 & [(e & -> & Hl1)|[-> Hl1]]); simpl in *.
  { intros [= <- <-]. split; [done|]. split; [by eexists|].
    exists [mid mn], []. rewrite app_nil_r. repeat split; try done.
    - apply sublist_skip, sublist_nil_l.
    - by repeat constructor. }
  intros H. apply IH' in H as (Hh & Hr & ids & recs & Ht & Hl & ? & Hrec & ?).
  split; [congruence|]. split; [done|].
  exists (mid mn :: ids), (mkVersion (mid mn) (Description (MVersion mn)) (clock w) :: recs).
  rewrite Ht, Ht1, Hl, Hl1, <-!app_assoc. simpl. repeat split; try done;
    first [by apply sublist_skip | by f_equal | by constructor].
Qed.

(** The second loop does nothing when the [n] it is given is not
    positive, whatever [currentVersion] stands for. *)
Lemma Down_for_dead (currentVersion : N) (m : migrator) (n : Z)
    (all : list Migration) (k : nat) (w : World) :
  (n ≤ 0)%Z → Down_for currentVersion m n all k 0 w = (Done None, w).
Proof.
  intros Hn. destruct k as [|i]; simpl; [done|].
  by rewrite (proj2 (Z.ltb_ge 0 n) Hn).
Qed.

(** ** [Up] and [Down] as a whole *)

Lemma sorted_world_spec (m : migrator) (direction : list Z) (w : World) :
  Migrations_Sort (migrations m) direction w = (Done tt, sorted_world m direction w) ∧
  ledger (sorted_world m direction w) = ledger w ∧
  db (sorted_world m direction w) = db w ∧
  trace (sorted_world m direction w) = trace w ∧
  faults (sorted_world m direction w) = faults w ∧
  own m (sorted_world m direction w) = sorted_by direction (own m w) ∧
  (∀ l, l ≠ migrations m → heap (sorted_world m direction w) !! l = heap w !! l).
Proof.
  unfold sorted_world, own.
  destruct (Sort_spec (migrations m) direction w) as (w' & -> & ? & ? & ? & ? & ? & ? & ?).
  by repeat split.
Qed.

(** [Up] reads the current version; if that fails it returns the error,
    otherwise it sorts its slice ascending and runs its loop. *)
Lemma migrator_Up_run (m : migrator) (n : Z) (w : World) :
  ∃ v d err fs,
    migrator_CurrentVersion m w = (Done (v, d, err), set_faults fs w) ∧
    (err = None → (v, d) = reported (ledger w)) ∧
    migrator_Up m n w =
      match err with
      | Some e => (Done (Some e), set_faults fs w)
      | None =>
        Up_range m v (clamp n (length (own m w))) (sorted_by [] (own m w))
          (sorted_world m [] (set_faults fs w))
      end.
Proof.
  destruct (CurrentVersion_spec m w) as (v & d & err & fs & Hcur & Hrep).
  exists v, d, err, fs. split; [done|]. split; [done|].
  unfold migrator_Up. rewrite bind_run, Hcur. destruct err as [e|]; [done|].
  rewrite bind_run. unfold elems at 1, gets. rewrite bind_run.
  destruct (sorted_world_spec m [] (set_faults fs w)) as (-> & _ & _ & _ & _ & Hown & _).
  rewrite bind_run. unfold elems, gets. fold (own m (sorted_world m [] (set_faults fs w))).
  by rewrite Hown.
Qed.

(** [Down] does the same with a descending sort and its first loop; its
    second loop never runs. *)
Lemma migrator_Down_run (currentVersion : N) (m : migrator) (n : Z) (w : World) :
  ∃ v d err fs,
    migrator_CurrentVersion m w = (Done (v, d, err), set_faults fs w) ∧
    (err = None → (v, d) = reported (ledger w)) ∧
    migrator_Down currentVersion m n w =
      match err with
      | Some e => (Done (Some e), set_faults fs w)
      | None =>
        match Down_range m v (sorted_by [(-1)%Z] (own m w)) 0
                (clamp n (length (own m w))) (sorted_by [(-1)%Z] (own m w))
                (sorted_world m [(-1)%Z] (set_faults fs w)) with
        | (Done (inl _), w') => (Done None, w')
        | (Done (inr e), w') => (Done (Some e), w')
        | (Panic msg, w') => (Panic msg, w')
        end
      end.
Proof.
  destruct (CurrentVersion_spec m w) as (v & d & err & fs & Hcur & Hrep).
  exists v, d, err, fs. split; [done|]. split; [done|].
  unfold migrator_Down. rewrite bind_run, Hcur. destruct err as [e|]; [done|].
  rewrite bind_run. unfold elems at 1, gets. rewrite bind_run.
  destruct (sorted_world_spec m [(-1)%Z] (set_faults fs w))
    as (-> & _ & _ & _ & _ & Hown & _).
  rewrite bind_run. unfold elems, gets.
  fold (own m (sorted_world m [(-1)%Z] (set_faults fs w))). rewrite Hown.
  change (own m (set_faults fs w)) with (own m w).
  change (default [] (heap (set_faults fs w) !! migrations m)) with (own m w).
  rewrite bind_run.
  destruct (Down_range _ _ _ _ _ _ _) as [r w'] eqn:Hrange.
  pose proof Hrange as Hspec.
  apply Down_range_spec in Hspec as (_ & (res & -> & Hres) & _); [|simpl; lia].
  destruct res as [n'|e]; [|done].
  apply Down_for_dead, Hres; [done|].
  rewrite (Permutation_length (sorted_by_perm _ _)).
  unfold clamp. destruct (_ || _) eqn:Hc; [lia|].
  apply orb_false_iff in Hc as [_ Hc]. apply Z.ltb_ge in Hc. lia.
Qed.

(** The forward actions an [Up] call invokes: a subsequence of the
    migrations in ascending order, all above the version the ledger
    recorded when the call began. *)
Lemma Up_trace (m : migrator) (n : Z) (w : World) :
  ∃ ids : list N,
    trace (migrator_Up m n w).2 = trace w ++ (CallUp <$> ids) ∧
    ids `sublist_of` (mid <$> sorted_by [] (own m w)) ∧
    Forall (λ i, (current_id (ledger w) < i)%N) ids.
Proof.
  destruct (migrator_Up_run m n w) as (v & d & [e|] & fs & _ & Hrep & ->).
  { exists []. simpl. rewrite app_nil_r. repeat split; [apply sublist_nil_l|constructor]. }
  destruct (Up_range _ _ _ _ _) as [r w'] eqn:Hrange.
  apply Up_range_spec in Hrange as (_ & _ & ids & recs & Ht & _ & Hsub & _ & Hall).
  destruct (sorted_world_spec m [] (set_faults fs w)) as (_ & _ & _ & Ht' & _).
  exists ids. simpl. rewrite Ht, Ht'. repeat split; [done|].
  specialize (Hrep eq_refl). rewrite <-reported_id, <-Hrep. done.
Qed.

(** The backward actions a [Down] call invokes: a subsequence of the
    migrations in descending order. *)
Lemma Down_trace (currentVersion : N) (m : migrator) (n : Z) (w : World) :
  ∃ ids : list N,
    trace (migrator_Down currentVersion m n w).2 = trace w ++ (CallDown <$> ids) ∧
    ids `sublist_of` (mid <$> sorted_by [(-1)%Z] (own m w)) ∧
    Forall (λ i, (current_id (ledger w) < i)%N) ids.
Proof.
  destruct (migrator_Down_run currentVersion m n w)
    as (v & d & [e|] & fs & _ & Hrep & ->).
  { exists []. simpl. rewrite app_nil_r. repeat split; [apply sublist_nil_l|constructor]. }
  destruct (Down_range _ _ _ _ _ _ _) as [r w'] eqn:Hrange.
  apply Down_range_spec in Hrange
    as (_ & (res & -> & _) & ids & recs & Ht & _ & Hsub & _ & Hall); [|simpl; lia].
  destruct (sorted_world_spec m [(-1)%Z] (set_faults fs w)) as (_ & _ & _ & Ht' & _).
  exists ids. specialize (Hrep eq_refl). rewrite <-reported_id, <-Hrep.
  destruct res; simpl; rewrite Ht, Ht'; by repeat split.
Qed.

(** Neither call touches a backing array other than the migrator's own. *)
Lemma Up_heap_frame (m : migrator) (n : Z) (w : World) (l : loc) :
  l ≠ migrations m → heap (migrator_Up m n w).2 !! l = heap w !! l.
Proof.
  intros Hl. destruct (migrator_Up_run m n w) as (v & d & [e|] & fs & _ & _ & ->); [done|].
  destruct (Up_range _ _ _ _ _) as [r w'] eqn:Hrange.
  apply Up_range_spec in Hrange as (Hh' & _).
  destruct (sorted_world_spec m [] (set_faults fs w)) as (_ & _ & _ & _ & _ & _ & Hh).
  simpl. by rewrite Hh', Hh.
Qed.

Lemma Down_heap_frame (currentVersion : N) (m : migrator) (n : Z) (w : World) (l : loc) :
  l ≠ migrations m → heap (migrator_Down currentVersion m n w).2 !! l = heap w !! l.
Proof.
  intros Hl. destruct (migrator_Down_run currentVersion m n w)
    as (v & d & [e|] & fs & _ & _ & ->); [done|].
  destruct (Down_range _ _ _ _ _ _ _) as [r w'] eqn:Hrange.
  apply Down_range_spec in Hrange as (Hh' & _); [|simpl; lia].
  destruct (sorted_world_spec m [(-1)%Z] (set_faults fs w)) as (_ & _ & _ & _ & _ & _ & Hh).
  assert (heap w' !! l = heap w !! l) as <- by (by rewrite Hh', Hh).
  by destruct r as [[?|?]|?].
Qed.

(** ** Steps of [Up] *)

Lemma Up_range_step (m : migrator) (cv : N) (n : Z) (mn : Migration)
    (rest : list Migration) (w : World) :
  (0 < n)%Z → (cv < mid mn)%N → isnil (Up mn) = false →
  Up_range m cv n (mn :: rest) w =
    match Up_step m cv mn w with
    | (Done None, w') => Up_range m cv (n - 1) rest w'
    | other => other
    end.
Proof.
  intros Hn Hid Hnil. simpl. unfold mid in Hid.
  rewrite (proj2 (Z.leb_gt n 0) Hn), (proj2 (N.leb_gt _ _) Hid), Hnil. simpl.
  unfold Up_step. rewrite !bind_run.
  destruct (call _ _ w) as [[[e|]|msg] w1]; try done.
  rewrite !bind_run. by destruct (migrator_SetVersion _ _ _ w1) as [[[e|]|msg] w2].
Qed.

(** From there the call goes on with the step for [mn], when [mn] is not
    skipped, and returns what the step returns if that is an error. *)
Lemma Up_reaches_run (m : migrator) (n : Z) (w0 : World) (cv : N)
    (mn : Migration) (w1 : World) :
  Up_reaches m n w0 cv mn w1 → (cv < mid mn)%N → isnil (Up mn) = false →
  ∃ (k : Z) (post : list Migration),
    migrator_Up m n w0 =
      match Up_step m cv mn w1 with
      | (Done None, w2) => Up_range m cv k post w2
      | other => other
      end.
Proof.
  intros (d & fs & pre & post & Hcur & Hsort & Hlen & Hpre) Hid Hnil.
  destruct (migrator_Up_run m n w0) as (v & d' & err & fs' & Hcur' & _ & ->).
  rewrite Hcur in Hcur'. injection Hcur' as <- <- <- <-.
  rewrite Hsort, Up_range_app, Hpre.
  rewrite Up_range_step by (done || lia). by eexists _, _.
Qed.

(** Before that step every record of the ledger has an id that does not
    exceed the id of [mn]. *)
Lemma Up_reaches_ledger (m : migrator) (n : Z) (w0 : World) (cv : N)
    (mn : Migration) (w1 : World) :
  Up_reaches m n w0 cv mn w1 → (cv < mid mn)%N →
  Forall (λ x, (ID x ≤ mid mn)%N) (ledger w1).
Proof.
  intros (d & fs & pre & post & Hcur & Hsort & Hlen & Hpre) Hid.
  destruct (CurrentVersion_spec m w0) as (v & d' & err & fs' & Hcur' & Hrep).
  rewrite Hcur in Hcur'. injection Hcur' as <- <- <- _.
  specialize (Hrep eq_refl). apply (f_equal fst) in Hrep. rewrite reported_id in Hrep.
  simpl in Hrep. subst cv.
  apply Up_range_spec in Hpre as (_ & _ & ids & recs & _ & Hl & Hsub & Hrec & _).
  destruct (sorted_world_spec m [] (set_faults fs w0)) as (_ & Hl' & _).
  rewrite Hl, Hl'. simpl. apply Forall_app. split.
  { eapply Forall_impl; [apply current_id_bound|]. simpl. intros; lia. }
  pose proof (sorted_by_asc (own m w0)) as Hsorted. rewrite Hsort in Hsorted.
  apply Forall_forall. intros x Hx.
  assert (ID x ∈ mid <$> pre) as Hin.
  { eapply sublist_subseteq; [exact Hsub|].
    eapply sublist_subseteq; [apply (sublist_take _ (length recs))|].
    rewrite <-Hrec. by apply list_elem_of_fmap_2. }
  apply list_elem_of_fmap in Hin as (p & -> & Hp).
  eapply (StronglySorted_app_1_elem_of asc); [exact Hsorted|exact Hp|left].
Qed.

(** The budget of [Up] counts the migrations looked at, skipped or not:
    a run with budget [n] is a run over the first [n] migrations. *)
Lemma Up_range_take (m : migrator) (cv : N) (ms : list Migration) :
  ∀ (n : Z) (w : World),
    Up_range m cv n ms w = Up_range m cv n (take (Z.to_nat n) ms) w.
Proof.
  induction ms as [|mn rest IH]; intros n w.
  { by rewrite take_nil. }
  destruct (Z.leb_spec n 0) as [Hn|Hn].
  { by rewrite !Up_range_break. }
  replace (Z.to_nat n) with (S (Z.to_nat (n - 1))) by lia.
  simpl. rewrite (proj2 (Z.leb_gt n 0) Hn).
  destruct (_ || _); [apply IH|].
  rewrite !bind_run. destruct (call _ _ w) as [[[e|]|msg] w1]; try done.
  rewrite !bind_run. by destruct (migrator_SetVersion _ _ _ w1) as [[[e|]|msg] w2].
Qed.

(** Every record a [Down] call appends carries the id of the migration
    whose backward action the call invoked just before. *)
Lemma Down_ledger (currentVersion : N) (m : migrator) (n : Z) (w : World) :
  ∃ (ids : list N) (recs : list Version),
    trace (migrator_Down currentVersion m n w).2 = trace w ++ (CallDown <$> ids) ∧
    ledger (migrator_Down currentVersion m n w).2 = ledger w ++ recs ∧
    ID <$> recs = take (length recs) ids.
Proof.
  destruct (migrator_Down_run currentVersion m n w)
    as (v & d & [e|] & fs & _ & _ & ->).
  { exists [], []. simpl. by rewrite !app_nil_r. }
  destruct (Down_range _ _ _ _ _ _ _) as [r w'] eqn:Hrange.
  apply Down_range_spec in Hrange
    as (_ & (res & -> & _) & ids & recs & Ht & Hl & _ & Hrec & _); [|simpl; lia].
  destruct (sorted_world_spec m [(-1)%Z] (set_faults fs w)) as (_ & Hl' & _ & Ht' & _).
  exists ids, recs. destruct res; simpl; rewrite Ht, Ht', Hl, Hl'; by repeat split.
Qed.

(** So a [Down] call never lowers the version the ledger records. *)
Lemma Down_never_lowers (currentVersion : N) (m : migrator) (n : Z) (w : World) :
  (current_id (ledger w)
   ≤ current_id (ledger (migrator_Down currentVersion m n w).2))%N.
Proof.
  destruct (Down_ledger currentVersion m n w) as (ids & recs & _ & -> & _).
  apply current_id_app.
Qed.

(** ** Calls made after construction *)

Lemma run_calls_heap_frame (currentVersion : N) (m : migrator) (cs : list Call)
    (l : loc) :
  l ≠ migrations m →
  ∀ w, heap (run_calls currentVersion m cs w) !! l = heap w !! l.
Proof.
  intros Hl. induction cs as [|c cs' IH]; intros w; simpl; [done|].
  rewrite IH. destruct c; simpl; [by apply Up_heap_frame|by apply Down_heap_frame].
Qed.

(** ** The claims that hold *)

(** C4. Whatever the migrator, the budget [n] and the world, the actions a
    call to [Up] invokes are forward actions only, and each belongs to a
    migration whose id is strictly greater than the version the ledger
    recorded before the call began: no forward action is invoked for an id
    less than or equal to that version. *)
Theorem Up_never_invokes_applied (m : migrator) (n : Z) (w : World) :
  ∃ ids : list N,
    trace (migrator_Up m n w).2 = trace w ++ (CallUp <$> ids) ∧
    Forall (λ i, (current_id (ledger w) < i)%N) ids ∧
    ∀ i, (i ≤ current_id (ledger w))%N → CallUp i ∉ (CallUp <$> ids).
Proof.
  destruct (Up_trace m n w) as (ids & Ht & _ & Hall).
  exists ids. split; [done|]. split; [done|].
  intros i Hi Hin. apply list_elem_of_fmap in Hin as (j & [= <-] & Hj).
  rewrite Forall_forall in Hall. specialize (Hall _ Hj). lia.
Qed.

(** What a successful step of [Up] leaves in the ledger.  When a call to
    [Up] comes to a migration [mn] that it does not skip and the step for
    [mn] succeeds (the forward action returns no error and so does the
    ledger write), the call goes on from the world the step leaves, and
    its final ledger extends the ledger of that world; there the record
    with the greatest id is the one just written, with the id and
    description of [mn], and that is what every successful lookup of the
    current version returns. *)
Theorem Up_step_sets_version (m : migrator) (n : Z) (w0 : World) (cv : N)
    (mn : Migration) (w1 w2 : World) :
  Up_reaches m n w0 cv mn w1 →
  (cv < mid mn)%N → isnil (Up mn) = false →
  Up_step m cv mn w1 = (Done None, w2) →
  (∃ k post recs,
    migrator_Up m n w0 = Up_range m cv k post w2 ∧
    ledger (migrator_Up m n w0).2 = ledger w2 ++ recs) ∧
  latest (ledger w2) = Some (mkVersion (mid mn) (Description (MVersion mn)) (clock w1)) ∧
  current_id (ledger w2) = mid mn ∧
  ∀ v d w3, migrator_CurrentVersion m w2 = (Done (v, d, None), w3) →
    v = mid mn ∧ d = Description (MVersion mn).
Proof.
  intros Hreach Hid Hnil Hstep.
  pose proof (Up_reaches_ledger _ _ _ _ _ _ Hreach Hid) as Hle.
  destruct (Up_reaches_run _ _ _ _ _ _ Hreach Hid Hnil) as (k & post & Hrun).
  rewrite Hstep in Hrun.
  split.
  { exists k, post. rewrite Hrun.
    destruct (Up_range m cv k post w2) as [r w'] eqn:Hrest.
    apply Up_range_spec in Hrest as (_ & _ & ids & recs & _ & Hl & _).
    by exists recs. }
  apply isnil_false in Hnil as [up Hup].
  unfold Up_step in Hstep. rewrite Hup, bind_run, call_run in Hstep.
  destruct (up (db w1)) as [d [e|]]; simpl in Hstep; [done|].
  rewrite bind_run in Hstep.
  destruct (migrator_SetVersion _ _ _ _) as [r wa] eqn:Hset.
  apply SetVersion_spec in Hset as (_ & _ & _ & [(e & -> & _)|[-> Hl]]); [done|].
  injection Hstep as <-. simpl in Hl.
  assert (latest (ledger wa)
    = Some (mkVersion (mid mn) (Description (MVersion mn)) (clock w1))) as Hlatest.
  { rewrite Hl. by apply latest_snoc. }
  split; [done|]. split; [unfold current_id; by rewrite Hlatest|].
  intros v d' w3 Hread.
  destruct (CurrentVersion_spec m wa) as (v' & d'' & err & fs & Hcur & Hrep).
  rewrite Hread in Hcur. injection Hcur as -> -> <- _.
  specialize (Hrep eq_refl). unfold reported in Hrep. rewrite Hlatest in Hrep.
  by injection Hrep as -> ->.
Qed.


(** C7. Within one call to [Up], and within one call to [Down], the
    actions invoked are a subsequence of the migrations in the order the
    call ranges over them, so they form a sub-multiset of the set: an id
    is invoked at most as many times as there are migrations with that
    id, which is at most once for each migration. *)
Theorem actions_at_most_once (currentVersion : N) (m : migrator) (n : Z) (w : World) :
  (∃ ids : list N,
    trace (migrator_Up m n w).2 = trace w ++ (CallUp <$> ids) ∧
    ids `sublist_of` (mid <$> sorted_by [] (own m w)) ∧
    ids ⊆+ (mid <$> own m w)) ∧
  (∃ ids : list N,
    trace (migrator_Down currentVersion m n w).2 = trace w ++ (CallDown <$> ids) ∧
    ids `sublist_of` (mid <$> sorted_by [(-1)%Z] (own m w)) ∧
    ids ⊆+ (mid <$> own m w)).
Proof.
  split.
  - destruct (Up_trace m n w) as (ids & Ht & Hsub & _).
    exists ids. repeat split; try done.
    rewrite <-(sorted_by_perm [] (own m w)). by apply sublist_submseteq.
  - destruct (Down_trace currentVersion m n w) as (ids & Ht & Hsub & _).
    exists ids. repeat split; try done.
    rewrite <-(sorted_by_perm [(-1)%Z] (own m w)). by apply sublist_submseteq.
Qed.

(** With distinct ids no id is invoked twice. *)
Corollary actions_NoDup (direction : list Z) (m : migrator) (w : World)
    (ids : list N) :
  NoDup (mid <$> own m w) →
  ids `sublist_of` (mid <$> sorted_by direction (own m w)) → NoDup ids.
Proof.
  intros Hnd Hsub. eapply sublist_NoDup; [|exact Hsub].
  by rewrite (sorted_by_perm direction (own m w)).
Qed.

(** C10. [NewMigrate] gives the migrator a backing array of its own that
    holds the elements of the caller's slice; whatever calls to [Up] and
    [Down] follow, with their sorting in place, the caller's slice holds
    the same elements in the same order as when it was passed. *)
Theorem NewMigrate_clones (currentVersion : N) (caller : loc) (ms : list Migration)
    (options : list Option) (cs : list Call) (w : World) :
  heap w !! caller = Some ms →
  ∃ m w1,
    NewMigrate caller options w = (Done m, w1) ∧
    migrations m ≠ caller ∧
    own m w1 = ms ∧
    heap w1 !! caller = Some ms ∧
    heap (run_calls currentVersion m cs w1) !! caller = Some ms.
Proof.
  intros Hcaller. unfold NewMigrate. rewrite bind_run. unfold slices_Clone.
  set (l := fresh (dom (heap w))).
  assert (l ≠ caller) as Hl.
  { intros Heq. apply (is_fresh (dom (heap w))). fold l. rewrite Heq.
    apply elem_of_dom. by eexists. }
  eexists _, _. split; [done|]. simpl. split; [done|].
  assert (heap (set_heap (<[l:=default [] (heap w !! caller)]> (heap w)) w) !! caller
    = Some ms) as Hkept.
  { simpl. by rewrite lookup_insert_ne. }
  split; [|split; [done|]].
  - unfold own. simpl. rewrite lookup_insert_eq, Hcaller. done.
  - rewrite run_calls_heap_frame; [done|]. simpl. congruence.
Qed.

(** * Further properties of the code *)

(** ** [Migrations.Sort] and [Migrations.ContainsVersion] *)

(** Sorting what is sorted changes nothing. *)
Lemma sort_Slice_fixed {A : Type} (less : A → A → bool) (R : relation A)
    (l : list A) :
  (∀ a b, R a b → less b a = false) →
  StronglySorted R l → sort_Slice less l = l.
Proof.
  intros Hless. induction 1 as [|x l' Hl IH Hx]; simpl; [done|].
  rewrite IH. destruct Hx as [|y l'' Hy _]; simpl; [done|].
  by rewrite (Hless _ _ Hy).
Qed.

Lemma asc_not_less (a b : Migration) : asc a b → less_asc b a = false.
Proof. unfold asc, less_asc, mid. rewrite N.ltb_ge. lia. Qed.

Lemma desc_not_less (a b : Migration) : desc a b → less_desc b a = false.
Proof. unfold desc, less_desc, mid. rewrite N.ltb_ge. lia. Qed.

Lemma sorted_by_ordered (direction : list Z) (ms : list Migration) :
  StronglySorted (ordered direction) (sorted_by direction ms).
Proof.
  unfold ordered, sorted_by. destruct direction as [|d ?]; [apply sorted_by_asc|].
  destruct (d =? -1)%Z; [apply (sorted_by_desc ms)|apply (sorted_by_asc ms)].
Qed.

Lemma sorted_by_fixed (direction : list Z) (ms : list Migration) :
  StronglySorted (ordered direction) ms → sorted_by direction ms = ms.
Proof.
  unfold ordered, sorted_by. destruct direction as [|d ?].
  - apply sort_Slice_fixed, asc_not_less.
  - destruct (d =? -1)%Z.
    + apply sort_Slice_fixed, desc_not_less.
    + apply sort_Slice_fixed, asc_not_less.
Qed.

(** Among migrations with distinct ids, equal ids mean the same
    migration. *)
Lemma distinct_ids_inj (ms : list Migration) (a b : Migration) :
  NoDup (mid <$> ms) → a ∈ ms → b ∈ ms → mid a = mid b → a = b.
Proof.
  induction ms as [|x ms' IH]; simpl; [by intros _ Ha; inv Ha|].
  rewrite NoDup_cons. intros [Hx Hnd] Ha Hb Hab. inv Ha; inv Hb; try done.
  - destruct Hx. rewrite Hab. by apply list_elem_of_fmap_2.
  - destruct Hx. rewrite <-Hab. by apply list_elem_of_fmap_2.
  - by apply IH.
Qed.

(** With distinct ids there is one sorted arrangement only. *)
Lemma sorted_distinct_unique (R : relation Migration) (l1 l2 : list Migration) :
  (∀ a b, R a b → R b a → mid a = mid b) →
  NoDup (mid <$> l1) → l1 ≡ₚ l2 →
  StronglySorted R l1 → StronglySorted R l2 → l1 = l2.
Proof.
  intros Hanti Hnd Hperm H1 H2.
  apply (StronglySorted_unique_strong R); try done.
  intros a b Ha Hb Hab Hba. apply (distinct_ids_inj l1); try done.
  - by rewrite Hperm.
  - by apply Hanti.
Qed.

Lemma ordered_antisym (direction : list Z) (a b : Migration) :
  ordered direction a b → ordered direction b a → mid a = mid b.
Proof.
  unfold ordered. destruct direction as [|d ?]; [unfold asc; lia|].
  destruct (d =? -1)%Z; unfold asc, desc; lia.
Qed.

(** X1. [Sort()] leaves the backing array of the slice holding the same
    migrations ordered by ascending id, [Sort(-1)] by descending id; it
    works in place: it does not panic and touches no other slice, nor the
    ledger, the database or the trace. *)
Theorem Sort_orders_in_place (s : loc) (ms : list Migration) (w : World) :
  heap w !! s = Some ms →
  (∃ w' ms',
    Migrations_Sort s [] w = (Done tt, w') ∧
    heap w' !! s = Some ms' ∧ ms' ≡ₚ ms ∧ StronglySorted asc ms' ∧
    (∀ l, l ≠ s → heap w' !! l = heap w !! l) ∧
    ledger w' = ledger w ∧ db w' = db w ∧ trace w' = trace w) ∧
  (∃ w' ms',
    Migrations_Sort s [(-1)%Z] w = (Done tt, w') ∧
    heap w' !! s = Some ms' ∧ ms' ≡ₚ ms ∧ StronglySorted desc ms' ∧
    (∀ l, l ≠ s → heap w' !! l = heap w !! l) ∧
    ledger w' = ledger w ∧ db w' = db w ∧ trace w' = trace w).
Proof.
  intros Hs. unfold Migrations_Sort, modify. rewrite Hs. split.
  - eexists _, _. split; [done|]. simpl. rewrite lookup_insert_eq.
    split; [done|]. split; [apply (sorted_by_perm [])|]. split; [apply sorted_by_asc|].
    split; [|done]. intros l Hl. by rewrite lookup_insert_ne.
  - eexists _, _. split; [done|]. simpl. rewrite lookup_insert_eq.
    split; [done|]. split; [apply (sorted_by_perm [(-1)%Z])|].
    split; [apply sorted_by_desc|].
    split; [|done]. intros l Hl. by rewrite lookup_insert_ne.
Qed.

(** X2. Sorting twice in the same direction is sorting once: the second
    [Sort] leaves the world as the first left it. *)
Theorem Sort_idempotent (s : loc) (direction : list Z) (w : World) :
  ∃ w',
    Migrations_Sort s direction w = (Done tt, w') ∧
    Migrations_Sort s direction w' = (Done tt, w').
Proof.
  unfold Migrations_Sort, modify. eexists. split; [done|]. f_equal.
  destruct (heap w !! s) as [a|] eqn:Hs; simpl.
  - rewrite lookup_insert_eq. destruct w as [h l d c fs t]; simpl in *.
    unfold set_heap; simpl. f_equal.
    rewrite insert_insert_eq. f_equal. apply sorted_by_fixed, sorted_by_ordered.
  - by rewrite Hs.
Qed.

(** X3. When the ids are distinct, the order [Sort] leaves does not depend
    on the order in which the migrations were registered. *)
Theorem Sort_registration_order (direction : list Z) (ms ms' : list Migration) :
  NoDup (mid <$> ms) → ms ≡ₚ ms' →
  sorted_by direction ms = sorted_by direction ms'.
Proof.
  intros Hnd Hperm.
  apply (sorted_distinct_unique (ordered direction)).
  - apply ordered_antisym.
  - by rewrite (sorted_by_perm direction ms).
  - by rewrite !sorted_by_perm.
  - apply sorted_by_ordered.
  - apply sorted_by_ordered.
Qed.

(** X4. When the ids are distinct, the descending order of [Sort(-1)] is
    the ascending order of [Sort()] reversed. *)
Theorem Sort_descending_reverse (ms : list Migration) :
  NoDup (mid <$> ms) →
  sorted_by [(-1)%Z] ms = reverse (sorted_by [] ms).
Proof.
  intros Hnd. apply (sorted_distinct_unique desc).
  - unfold desc. lia.
  - by rewrite (sorted_by_perm [(-1)%Z] ms).
  - by rewrite reverse_Permutation, !sorted_by_perm.
  - apply sorted_by_desc.
  - apply (Sorted_StronglySorted desc).
    apply (Sorted_reverse asc), Sorted.StronglySorted_Sorted, sorted_by_asc.
Qed.

Lemma contains_spec (version : N) (l : list Migration) :
  contains version l = true ↔ version ∈ mid <$> l.
Proof.
  induction l as [|mn l' IH]; simpl.
  - split; [done|]. by intros H; inv H.
  - unfold mid at 1. destruct (N.eqb_spec (ID (MVersion mn)) version) as [<-|Hne].
    + split; [|done]. intros _. left.
    + rewrite IH. split; [by right|]. intros H. by inv H.
Qed.

(** X5. [ContainsVersion(version)] answers [true] exactly when some
    migration of the slice has that id ([false] on an empty or nil slice);
    it changes nothing. *)
Theorem ContainsVersion_spec (s : loc) (version : N) (w : World) :
  ∃ b : bool,
    Migrations_ContainsVersion s version w = (Done b, w) ∧
    (b = true ↔ version ∈ mid <$> default [] (heap w !! s)).
Proof.
  unfold Migrations_ContainsVersion. rewrite bind_run. unfold elems, gets.
  eexists. split; [done|]. apply contains_spec.
Qed.

Lemma contains_perm (version : N) (l l' : list Migration) :
  l ≡ₚ l' → contains version l = contains version l'.
Proof.
  intros Hperm. apply eq_true_iff_eq. rewrite !contains_spec. by rewrite Hperm.
Qed.

(** X6. Sorting the slice, in either direction, does not change what
    [ContainsVersion] answers. *)
Theorem ContainsVersion_after_Sort (s : loc) (direction : list Z) (version : N)
    (w : World) :
  (Migrations_ContainsVersion s version (Migrations_Sort s direction w).2).1
    = (Migrations_ContainsVersion s version w).1.
Proof.
  destruct (Sort_spec s direction w) as (w' & -> & _ & _ & _ & _ & _ & Hs & _).
  unfold Migrations_ContainsVersion. rewrite !bind_run. unfold elems, gets. simpl.
  rewrite Hs. f_equal. apply contains_perm, sorted_by_perm.
Qed.

(** ** [versions.Get] and [SetVersion] *)

(** A record appended with an id below the greatest one is not the one
    [FindOne] selects. *)
Lemma latest_snoc_lower (l : list Version) (u x : Version) :
  latest l = Some u → (ID x < ID u)%N → latest (l ++ [x]) = Some u.
Proof.
  revert u. induction l as [|v l' IH]; intros u; simpl; [done|].
  destruct (latest l') as [t|] eqn:Hl.
  - intros Hu Hx. destruct (N.ltb_spec (ID x) (ID t)) as [Hxt|Hxt].
    + by rewrite (IH t eq_refl Hxt).
    + destruct (ID t <? ID v)%N eqn:Htv; injection Hu as <-; [|lia].
      apply N.ltb_lt in Htv.
      destruct (latest (l' ++ [x])) as [q|] eqn:Hq.
      * assert (ID q < ID v)%N as Hqv.
        { apply latest_elem, elem_of_app in Hq as [Hq|Hq].
          - apply latest_bound in Hl. rewrite Forall_forall in Hl.
            specialize (Hl _ Hq). simpl in Hl. lia.
          - apply list_elem_of_singleton in Hq as ->. lia. }
        by rewrite (proj2 (N.ltb_lt _ _) Hqv).
      * apply latest_nil_inv in Hq. by destruct l'.
  - intros [= <-] Hx. apply latest_nil_inv in Hl as ->. simpl.
    by rewrite (proj2 (N.ltb_lt _ _) Hx).
Qed.

(** X7. [Get] never panics, never changes the ledger, the slices, the
    database or the trace, never reports [ErrNoDocuments] (an empty ledger
    is not an error), and returns the zero id and description whenever it
    returns an error. *)
Theorem Get_read_only (vs : versions) (id : Z) (w : World) :
  ∃ i d err w',
    versions_Get vs id w = (Done (i, d, err), w') ∧
    ledger w' = ledger w ∧ heap w' = heap w ∧ db w' = db w ∧ trace w' = trace w ∧
    err ≠ Some ErrNoDocuments ∧
    (err ≠ None → i = 0%N ∧ d = "").
Proof.
  unfold versions_Get, FindOne_latest.
  rewrite !bind_run. unfold driver_fault.
  destruct w as [h l d c fs t]; simpl.
  destruct fs as [|[msg|] fs]; simpl; rewrite ?bind_run; simpl.
  - destruct (latest l) as [u|]; simpl; eexists _, _, _, _; by repeat split.
  - eexists _, _, _, _. by repeat split.
  - destruct (latest l) as [u|]; simpl; [|eexists _, _, _, _; by repeat split].
    unfold Decode; simpl. rewrite bind_run; simpl.
    destruct fs as [|[msg|] fs]; simpl; eexists _, _, _, _; by repeat split.
Qed.

(** X8. When [Get] returns no error, what it returns is the id and the
    description of a record of the ledger that no record exceeds in id,
    whatever [id] it was asked for; on an empty ledger it is the zero id
    and the empty description. *)
Theorem Get_returns_greatest (vs : versions) (id : Z) (w w' : World)
    (i : N) (d : string) :
  versions_Get vs id w = (Done (i, d, None), w') →
  (ledger w = [] ∧ i = 0%N ∧ d = "") ∨
  (∃ rec, rec ∈ ledger w ∧ ID rec = i ∧ Description rec = d ∧
          Forall (λ x, (ID x ≤ i)%N) (ledger w)).
Proof.
  intros Hget.
  destruct (CurrentVersion_spec (mkMigrator vs 1%positive) w)
    as (v' & d' & err & fs & Hcur & Hrep).
  change (migrator_CurrentVersion (mkMigrator vs 1%positive) w)
    with (versions_Get vs id w) in Hcur.
  rewrite Hget in Hcur. injection Hcur as -> -> <- _.
  specialize (Hrep eq_refl). unfold reported in Hrep.
  destruct (latest (ledger w)) as [u|] eqn:Hl.
  - injection Hrep as -> ->. right. exists u.
    split; [by apply latest_elem|]. split; [done|]. split; [done|].
    by apply latest_bound.
  - injection Hrep as -> ->. left. by apply latest_nil_inv in Hl.
Qed.

(** X9. [SetVersion] does not panic and leaves the slices, the database
    and the trace alone; either it returns [nil] and has appended to the
    ledger exactly one record, with the given id and description and the
    time of the call, or it returns the driver's own error, not wrapped,
    and the ledger is as it was. *)
Theorem SetVersion_one_record (m : migrator) (version : N) (description : string)
    (w : World) :
  ∃ r w',
    migrator_SetVersion m version description w = (Done r, w') ∧
    heap w' = heap w ∧ db w' = db w ∧ trace w' = trace w ∧
    clock w < clock w' ∧
    ((r = None ∧ ledger w' = ledger w ++ [mkVersion version description (clock w)]) ∨
     (∃ msg, r = Some (ErrorNew msg) ∧ faults w = Some msg :: faults w' ∧
             ledger w' = ledger w)).
Proof.
  unfold migrator_SetVersion, InsertOne, time_Now, driver_fault.
  rewrite !bind_run. destruct w as [h l dd c fs t]; simpl.
  destruct fs as [|[msg|] fs]; simpl; eexists _, _; repeat split; eauto.
Qed.

(** X10. After [SetVersion] has succeeded with an id above every id in the
    ledger, the next [Get] that succeeds returns that id and its
    description. *)
Theorem SetVersion_then_Get (m : migrator) (version : N) (description : string)
    (id : Z) (w w1 w2 : World) (i : N) (d : string) :
  Forall (λ x, (ID x < version)%N) (ledger w) →
  migrator_SetVersion m version description w = (Done None, w1) →
  versions_Get (mversions m) id w1 = (Done (i, d, None), w2) →
  i = version ∧ d = description.
Proof.
  intros Hlt Hset Hget.
  apply SetVersion_spec in Hset as (_ & _ & _ & [(e & [=] & _)|[_ Hl]]).
  destruct (CurrentVersion_spec m w1) as (v' & d' & err & fs & Hcur & Hrep).
  change (migrator_CurrentVersion m w1) with (versions_Get (mversions m) id w1) in Hcur.
  rewrite Hget in Hcur. injection Hcur as -> -> <- _.
  specialize (Hrep eq_refl). unfold reported in Hrep.
  rewrite Hl, latest_snoc in Hrep; [by injection Hrep as -> ->|].
  eapply Forall_impl; [exact Hlt|]. simpl. intros; lia.
Qed.

(** X11. [SetVersion] with an id below the version the ledger records does
    not change what the ledger reports: the record is appended, but the
    lookup still selects the record with the greatest id. *)
Theorem SetVersion_lower_no_effect (m : migrator) (version : N)
    (description : string) (w w1 : World) (r : outcome (option error)) :
  (version < current_id (ledger w))%N →
  migrator_SetVersion m version description w = (r, w1) →
  reported (ledger w1) = reported (ledger w) ∧
  ∀ id i d w2, versions_Get (mversions m) id w1 = (Done (i, d, None), w2) →
    (i, d) = reported (ledger w).
Proof.
  intros Hlt Hset.
  assert (reported (ledger w1) = reported (ledger w)) as Hsame.
  { apply SetVersion_spec in Hset as (_ & _ & _ & [(e & _ & ->)|[_ ->]]); [done|].
    unfold reported. unfold current_id in Hlt.
    destruct (latest (ledger w)) as [u|] eqn:Hl; [|lia].
    by rewrite (latest_snoc_lower _ u). }
  split; [done|]. intros id i d w2 Hget.
  destruct (CurrentVersion_spec m w1) as (v' & d' & err & fs & Hcur & Hrep).
  change (migrator_CurrentVersion m w1) with (versions_Get (mversions m) id w1) in Hcur.
  rewrite Hget in Hcur. injection Hcur as -> -> <- _.
  by rewrite <-Hsame, <-Hrep.
Qed.

(** ** [NewMigrate] and its options *)

Lemma options_collection (names : list string) (c : config) :
  collectionName (foldl (λ c (o : Option), o c) c (WithMigrationsCollection <$> names))
    = default (collectionName c) (last names).
Proof.
  revert c. induction names as [|name names' IH]; intros c; simpl; [done|].
  etrans; [apply IH|]. destruct names' as [|name' names'']; [done|].
  change (last (name :: name' :: names'')) with (last (name' :: names'')).
  destruct (last (name' :: names'')) eqn:Hlast; [done|].
  by apply last_None in Hlast.
Qed.

(** X12. The ledger handle of a migrator that [NewMigrate] returns carries
    the collection name given by the last [WithMigrationsCollection]
    option, and the default name "migrations" when there is none: options
    apply in order and a later one overrides an earlier one. *)
Theorem NewMigrate_collection (caller : loc) (names : list string) (w w' : World)
    (m : migrator) :
  NewMigrate caller (WithMigrationsCollection <$> names) w = (Done m, w') →
  collection (mversions m) = default _defaultMigrationsCollection (last names).
Proof.
  unfold NewMigrate. rewrite bind_run. unfold slices_Clone.
  intros [= <- _]. simpl. apply (options_collection names).
Qed.

(** What [NewMigrate] does to the world: one fresh backing array, holding
    the elements of the caller's slice. *)
Lemma NewMigrate_spec (caller : loc) (options : list Option) (w : World) :
  ∃ m w',
    NewMigrate caller options w = (Done m, w') ∧
    heap w !! migrations m = None ∧
    heap w' = <[migrations m := default [] (heap w !! caller)]> (heap w) ∧
    ledger w' = ledger w ∧ db w' = db w ∧ trace w' = trace w ∧
    faults w' = faults w ∧ clock w' = clock w.
Proof.
  unfold NewMigrate. rewrite bind_run. unfold slices_Clone.
  eexists _, _. split; [done|]. simpl. split; [|done].
  apply not_elem_of_dom, is_fresh.
Qed.

(** X13. When [NewMigrate] returns a migrator, the slice of that migrator
    is a backing array that did not exist before and holds the elements
    of the caller's slice in the caller's order (none for a nil slice);
    every slice that existed is as it was, and so are the ledger, the
    database and the trace. *)
Theorem NewMigrate_fresh (caller : loc) (options : list Option) (w w' : World)
    (m : migrator) :
  NewMigrate caller options w = (Done m, w') →
  heap w !! migrations m = None ∧
  own m w' = default [] (heap w !! caller) ∧
  (∀ l, is_Some (heap w !! l) → heap w' !! l = heap w !! l) ∧
  ledger w' = ledger w ∧ db w' = db w ∧ trace w' = trace w.
Proof.
  intros Hret.
  destruct (NewMigrate_spec caller options w)
    as (m0 & w0 & Hnew & Hfresh & Hheap & Hl & Hd & Ht & _).
  rewrite Hret in Hnew. injection Hnew as <- <-.
  split; [done|]. unfold own. rewrite Hheap.
  split; [by rewrite lookup_insert_eq|]. split; [|done].
  intros l [a Ha]. rewrite lookup_insert_ne; [done|]. congruence.
Qed.

(** X14. Two migrators built from the same caller's slice do not share a
    backing array: whatever calls to [Up] and [Down] are made on the
    first, the slice of the second holds the same elements in the same
    order. *)
Theorem migrators_do_not_alias (currentVersion : N) (caller : loc)
    (o1 o2 : list Option) (cs : list Call) (w w1 w2 : World) (m1 m2 : migrator) :
  NewMigrate caller o1 w = (Done m1, w1) →
  NewMigrate caller o2 w1 = (Done m2, w2) →
  migrations m1 ≠ migrations m2 ∧
  own m2 (run_calls currentVersion m1 cs w2) = own m2 w2.
Proof.
  intros H1 H2.
  destruct (NewMigrate_spec caller o1 w) as (m & w' & Hnew & _ & Hheap & _).
  rewrite H1 in Hnew. injection Hnew as <- <-.
  destruct (NewMigrate_spec caller o2 w1) as (m & w' & Hnew & Hfresh & _).
  rewrite H2 in Hnew. injection Hnew as <- <-.
  assert (migrations m1 ≠ migrations m2) as Hne.
  { intros Heq. rewrite Hheap, <-Heq, lookup_insert_eq in Hfresh. done. }
  split; [done|]. unfold own. by rewrite run_calls_heap_frame.
Qed.

(** ** [Up] and [Down]: what every call does *)

(** Actions invoked and records written go in step: a loop that ends
    without error has written one record for each action it invoked, and
    one that returns an error has invoked exactly one action more. *)
Lemma Up_range_counts (m : migrator) (cv : N) (ms : list Migration) :
  ∀ (n : Z) (w w' : World) (r : outcome (option error)),
    Up_range m cv n ms w = (r, w') →
    (r = Done None →
       length (trace w') + length (ledger w) = length (trace w) + length (ledger w')) ∧
    (∀ e, r = Done (Some e) →
       length (trace w') + length (ledger w)
         = S (length (trace w) + length (ledger w'))).
Proof.
  induction ms as [|mn rest IH]; intros n w w' r; simpl.
  { intros [= <- <-]. split; [done|]. by intros e. }
  destruct (n <=? 0)%Z.
  { intros [= <- <-]. split; [done|]. by intros e. }
  destruct (_ || _) eqn:Hskip; [apply IH|].
  apply orb_false_iff in Hskip as [_ Hnil]. apply isnil_false in Hnil as [up ->].
  rewrite bind_run, call_run. destruct (up (db w)) as [d [e|]]; simpl.
  { intros [= <- <-]. simpl. rewrite length_app. simpl. split; [done|]. intros; lia. }
  rewrite bind_run.
  destruct (migrator_SetVersion _ _ _ _) as [r1 w1] eqn:Hset.
  apply SetVersion_spec in Hset as (_ & _ & Ht1 & [(e & -> & Hl1)|[-> Hl1]]); simpl in *.
  { intros [= <- <-]. rewrite Ht1, Hl1, length_app. simpl. split; [done|]. intros; lia. }
  intros H. apply IH in H as [Hok Herr]. rewrite Ht1, Hl1, !length_app in *. simpl in *.
  split.
  - intros Hr. specialize (Hok Hr). lia.
  - intros e Hr. specialize (Herr e Hr). lia.
Qed.

Lemma index_before_world (all : list Migration) (i : nat) (w : World) :
  ∃ r, index_before all i w = (r, w).
Proof.
  destruct i as [|j]; simpl; [by eexists|]. destruct (all !! j); by eexists.
Qed.

Lemma Down_range_counts (m : migrator) (cv : N) (all ms : list Migration) :
  ∀ (i : nat) (n : Z) (w w' : World) (r : outcome (Z + error)),
    Down_range m cv all i n ms w = (r, w') →
    (∀ n', r = Done (inl n') →
       length (trace w') + length (ledger w) = length (trace w) + length (ledger w')) ∧
    (∀ e, r = Done (inr e) →
       length (trace w') + length (ledger w)
         = S (length (trace w) + length (ledger w'))).
Proof.
  induction ms as [|mn rest IH]; intros i n w w' r; simpl.
  { intros [= <- <-]. split; [done|]. by intros e. }
  destruct (n <=? 0)%Z.
  { intros [= <- <-]. split; [done|]. by intros e. }
  destruct (_ || _) eqn:Hskip; [apply IH|].
  apply orb_false_iff in Hskip as [_ Hnil]. apply isnil_false in Hnil as [down ->].
  rewrite bind_run, call_run. destruct (down (db w)) as [d [e|]]; simpl.
  { intros [= <- <-]. simpl. rewrite length_app. simpl. split; [done|]. intros; lia. }
  rewrite bind_run.
  destruct (index_before_world all i (set_trace (trace w ++ [CallDown (ID (MVersion mn))])
    (set_db d w))) as [[prev|msg] ->].
  2:{ intros [= <- <-]. split; [done|]. by intros e. }
  rewrite bind_run.
  destruct (migrator_SetVersion _ _ _ _) as [r1 w1] eqn:Hset.
  apply SetVersion_spec in Hset as (_ & _ & Ht1 & [(e & -> & Hl1)|[-> Hl1]]); simpl in *.
  { intros [= <- <-]. rewrite Ht1, Hl1, length_app. simpl. split; [done|]. intros; lia. }
  intros H. apply IH in H as [Hok Herr]. rewrite Ht1, Hl1, !length_app in *. simpl in *.
  split.
  - intros n' Hr. specialize (Hok n' Hr). lia.
  - intros e Hr. specialize (Herr e Hr). lia.
Qed.

(** The budget of [Down] counts the migrations looked at, as that of
    [Up] does. *)
Lemma Down_range_take (m : migrator) (cv : N) (all ms : list Migration) :
  ∀ (i : nat) (n : Z) (w : World),
    Down_range m cv all i n ms w
      = Down_range m cv all i n (take (Z.to_nat n) ms) w.
Proof.
  induction ms as [|mn rest IH]; intros i n w.
  { by rewrite take_nil. }
  destruct (Z.leb_spec n 0) as [Hn|Hn].
  { replace (Z.to_nat n) with 0 by lia. simpl.
    by rewrite (proj2 (Z.leb_le n 0) Hn). }
  replace (Z.to_nat n) with (S (Z.to_nat (n - 1))) by lia.
  simpl. rewrite (proj2 (Z.leb_gt n 0) Hn).
  destruct (_ || _); [apply IH|].
  rewrite !bind_run. destruct (call _ _ w) as [[[e|]|msg] w1]; try done.
  rewrite !bind_run. destruct (index_before _ _ w1) as [[prev|msg] w2]; try done.
  rewrite !bind_run. by destruct (migrator_SetVersion _ _ _ w2) as [[[e|]|msg] w3].
Qed.

(** Everything the loops establish, for a whole call to [Up]: the call
    does not panic; the actions it invokes are forward actions of some of
    the first migrations in ascending order, as many as the budget allows,
    all above the version recorded before; the records it appends carry
    the ids of those actions, in order, one for each action but possibly
    the last. *)
Lemma Up_call_spec (m : migrator) (n : Z) (w : World) :
  ∃ (err : option error) (w' : World) (ids : list N) (recs : list Version),
    migrator_Up m n w = (Done err, w') ∧
    trace w' = trace w ++ (CallUp <$> ids) ∧
    ledger w' = ledger w ++ recs ∧
    ids `sublist_of`
      (mid <$> take (Z.to_nat (clamp n (length (own m w)))) (sorted_by [] (own m w))) ∧
    Forall (λ i, (current_id (ledger w) < i)%N) ids ∧
    ID <$> recs = take (length recs) ids ∧
    (err = None → length ids = length recs) ∧
    (err ≠ None → length ids = length recs ∨ length ids = S (length recs)).
Proof.
  destruct (migrator_Up_run m n w) as (v & d & [e|] & fs & _ & Hrep & ->).
  { exists (Some e), (set_faults fs w), [], []. simpl. rewrite !app_nil_r.
    repeat split; try done; [apply sublist_nil_l|by left]. }
  rewrite Up_range_take.
  destruct (Up_range _ _ _ _ _) as [r w'] eqn:Hrange.
  pose proof (Up_range_counts _ _ _ _ _ _ _ Hrange) as [Hok Herr].
  apply Up_range_spec in Hrange
    as (_ & (err & ->) & ids & recs & Ht & Hl & Hsub & Hrec & Hall).
  destruct (sorted_world_spec m [] (set_faults fs w)) as (_ & Hl' & _ & Ht' & _).
  rewrite Ht' in Ht. rewrite Hl' in Hl. simpl in Ht, Hl.
  rewrite Ht', Hl', Ht, Hl, !length_app, length_fmap in Hok, Herr. simpl in Hok, Herr.
  exists err, w', ids, recs. specialize (Hrep eq_refl).
  rewrite <-reported_id, <-Hrep. simpl. repeat split; try done.
  - intros ->. specialize (Hok eq_refl). lia.
  - intros Hne. destruct err as [e|]; [|done]. specialize (Herr e eq_refl). right. lia.
Qed.

(** The same for a whole call to [Down], with backward actions and the
    descending order. *)
Lemma Down_call_spec (currentVersion : N) (m : migrator) (n : Z) (w : World) :
  ∃ (err : option error) (w' : World) (ids : list N) (recs : list Version),
    migrator_Down currentVersion m n w = (Done err, w') ∧
    trace w' = trace w ++ (CallDown <$> ids) ∧
    ledger w' = ledger w ++ recs ∧
    ids `sublist_of`
      (mid <$> take (Z.to_nat (clamp n (length (own m w))))
                 (sorted_by [(-1)%Z] (own m w))) ∧
    Forall (λ i, (current_id (ledger w) < i)%N) ids ∧
    ID <$> recs = take (length recs) ids ∧
    (err = None → length ids = length recs) ∧
    (err ≠ None → length ids = length recs ∨ length ids = S (length recs)).
Proof.
  destruct (migrator_Down_run currentVersion m n w)
    as (v & d & [e|] & fs & _ & Hrep & ->).
  { exists (Some e), (set_faults fs w), [], []. simpl. rewrite !app_nil_r.
    repeat split; try done; [apply sublist_nil_l|by left]. }
  rewrite Down_range_take.
  destruct (Down_range _ _ _ _ _ _ _) as [r w'] eqn:Hrange.
  pose proof (Down_range_counts _ _ _ _ _ _ _ _ _ Hrange) as [Hok Herr].
  apply Down_range_spec in Hrange
    as (_ & (res & -> & _) & ids & recs & Ht & Hl & Hsub & Hrec & Hall).
  2:{ simpl. rewrite length_take. lia. }
  destruct (sorted_world_spec m [(-1)%Z] (set_faults fs w)) as (_ & Hl' & _ & Ht' & _).
  rewrite Ht' in Ht. rewrite Hl' in Hl. simpl in Ht, Hl.
  rewrite Ht', Hl', Ht, Hl, !length_app, length_fmap in Hok, Herr. simpl in Hok, Herr.
  specialize (Hrep eq_refl). rewrite <-reported_id, <-Hrep. simpl.
  destruct res as [n'|e].
  - exists None, w', ids, recs. repeat split; try done.
    intros _. specialize (Hok n' eq_refl). lia.
  - exists (Some e), w', ids, recs. repeat split; try done.
    intros _. specialize (Herr e eq_refl). right. lia.
Qed.

(** X15. When reading the current version fails, [Up] and [Down] return
    that error as it is, not wrapped, and do nothing else: no action is
    invoked, nothing is written to the ledger, and the slice is not even
    sorted. *)
Theorem read_failure_aborts (currentVersion : N) (m : migrator) (n : Z)
    (w w' : World) (v : N) (d : string) (e : error) :
  migrator_CurrentVersion m w = (Done (v, d, Some e), w') →
  migrator_Up m n w = (Done (Some e), w') ∧
  migrator_Down currentVersion m n w = (Done (Some e), w') ∧
  heap w' = heap w ∧ ledger w' = ledger w ∧ trace w' = trace w ∧ db w' = db w.
Proof.
  intros Hcur. unfold migrator_Up, migrator_Down. rewrite !bind_run, Hcur.
  split; [done|]. split; [done|].
  destruct (CurrentVersion_spec m w) as (v' & d' & err & fs & Hcur' & _).
  rewrite Hcur in Hcur'. by injection Hcur' as _ _ _ ->.
Qed.


(** X17. [Up] and [Down] only append to the ledger: the records there
    before a call are there after it, unchanged and in the same order, and
    so the version the ledger records never decreases. *)
Theorem ledger_append_only (currentVersion : N) (m : migrator) (n : Z) (w : World) :
  (∃ recs,
    ledger (migrator_Up m n w).2 = ledger w ++ recs ∧
    (current_id (ledger w) ≤ current_id (ledger (migrator_Up m n w).2))%N) ∧
  (∃ recs,
    ledger (migrator_Down currentVersion m n w).2 = ledger w ++ recs ∧
    (current_id (ledger w)
     ≤ current_id (ledger (migrator_Down currentVersion m n w).2))%N).
Proof.
  split.
  - destruct (Up_call_spec m n w) as (err & w' & ids & recs & -> & _ & Hl & _).
    exists recs. simpl. rewrite Hl. split; [done|apply current_id_app].
  - destruct (Down_call_spec currentVersion m n w)
      as (err & w' & ids & recs & -> & _ & Hl & _).
    exists recs. simpl. rewrite Hl. split; [done|apply current_id_app].
Qed.

(** X18. The budget counts the migrations looked at: with [k] the budget
    after clamping, [Up] invokes forward actions only among the first [k]
    migrations in ascending order of id, and [Down] backward actions only
    among the first [k] in descending order; in particular at most [k]
    actions are invoked. *)
Theorem budget_window (currentVersion : N) (m : migrator) (n : Z) (w : World) :
  let k := Z.to_nat (clamp n (length (own m w))) in
  (∃ ids,
    trace (migrator_Up m n w).2 = trace w ++ (CallUp <$> ids) ∧
    ids `sublist_of` (mid <$> take k (sorted_by [] (own m w))) ∧
    length ids ≤ k) ∧
  (∃ ids,
    trace (migrator_Down currentVersion m n w).2 = trace w ++ (CallDown <$> ids) ∧
    ids `sublist_of` (mid <$> take k (sorted_by [(-1)%Z] (own m w))) ∧
    length ids ≤ k).
Proof.
  intros k. split.
  - destruct (Up_call_spec m n w) as (err & w' & ids & recs & -> & Ht & _ & Hsub & _).
    exists ids. split; [done|]. split; [done|].
    apply sublist_length in Hsub. rewrite length_fmap, length_take in Hsub. lia.
  - destruct (Down_call_spec currentVersion m n w)
      as (err & w' & ids & recs & -> & Ht & _ & Hsub & _).
    exists ids. split; [done|]. split; [done|].
    apply sublist_length in Hsub. rewrite length_fmap, length_take in Hsub. lia.
Qed.

Lemma clamp_all (n : Z) (len : nat) :
  (n ≤ 0 ∨ Z.of_nat len < n)%Z → clamp n len = clamp AllAvailable len.
Proof.
  unfold clamp, AllAvailable. intros [Hn|Hn].
  - by rewrite (proj2 (Z.leb_le n 0) Hn).
  - rewrite (proj2 (Z.ltb_lt _ _) Hn). by rewrite orb_true_r.
Qed.

(** X19. A budget [n] that is zero, negative or greater than the number
    of migrations is the budget [AllAvailable]: [Up(n)] and [Down(n)] are
    then [Up(AllAvailable)] and [Down(AllAvailable)]. *)
Theorem budget_all (currentVersion : N) (m : migrator) (n : Z) (w : World) :
  (n ≤ 0 ∨ Z.of_nat (length (own m w)) < n)%Z →
  migrator_Up m n w = migrator_Up m AllAvailable w ∧
  migrator_Down currentVersion m n w = migrator_Down currentVersion m AllAvailable w.
Proof.
  intros Hn. split.
  - destruct (migrator_Up_run m n w) as (v & d & err & fs & Hcur & _ & ->).
    destruct (migrator_Up_run m AllAvailable w) as (v' & d' & err' & fs' & Hcur' & _ & ->).
    rewrite Hcur in Hcur'. injection Hcur' as <- <- <- <-.
    by rewrite (clamp_all n _ Hn).
  - destruct (migrator_Down_run currentVersion m n w)
      as (v & d & err & fs & Hcur & _ & ->).
    destruct (migrator_Down_run currentVersion m AllAvailable w)
      as (v' & d' & err' & fs' & Hcur' & _ & ->).
    rewrite Hcur in Hcur'. injection Hcur' as <- <- <- <-.
    by rewrite (clamp_all n _ Hn).
Qed.

(** X20. The second loop of [Down] never runs: the first loop leaves no
    budget for it, so a call to [Down] does the same whatever value the
    undeclared [currentVersion] stands for. *)
Theorem Down_second_loop_dead (cv1 cv2 : N) (m : migrator) (n : Z) (w : World) :
  migrator_Down cv1 m n w = migrator_Down cv2 m n w.
Proof.
  destruct (migrator_Down_run cv1 m n w) as (v & d & err & fs & Hcur & _ & ->).
  destruct (migrator_Down_run cv2 m n w) as (v' & d' & err' & fs' & Hcur' & _ & ->).
  rewrite Hcur in Hcur'. by injection Hcur' as <- <- <- <-.
Qed.

(** X21. The backward actions a call to [Down] invokes all belong to
    migrations whose id is strictly greater than the version the ledger
    recorded before the call: [Down] never invokes the backward action of
    a migration with an id up to that version, and never a forward
    action. *)
Theorem Down_only_above_version (currentVersion : N) (m : migrator) (n : Z)
    (w : World) :
  ∃ ids : list N,
    trace (migrator_Down currentVersion m n w).2 = trace w ++ (CallDown <$> ids) ∧
    Forall (λ i, (current_id (ledger w) < i)%N) ids ∧
    ∀ i, (i ≤ current_id (ledger w))%N → CallDown i ∉ (CallDown <$> ids).
Proof.
  destruct (Down_call_spec currentVersion m n w)
    as (err & w' & ids & recs & -> & Ht & _ & _ & Hall & _).
  exists ids. split; [done|]. split; [done|].
  intros i Hi Hin. apply list_elem_of_fmap in Hin as (j & [= <-] & Hj).
  rewrite Forall_forall in Hall. specialize (Hall _ Hj). lia.
Qed.

Lemma take_all_or_but_last {A : Type} (k : nat) (l : list A) :
  (length l = k → take k l = l) ∧
  (length l = S k → ∃ x, l = take k l ++ [x]).
Proof.
  split.
  - intros <-. apply firstn_all.
  - intros Hlen. pose proof (eq_sym (take_drop k l)) as Hsplit.
    destruct (drop k l) as [|x [|y l']] eqn:Hdrop.
    + apply (f_equal length) in Hdrop. rewrite length_drop in Hdrop. simpl in Hdrop. lia.
    + by exists x.
    + apply (f_equal length) in Hdrop. rewrite length_drop in Hdrop. simpl in Hdrop. lia.
Qed.

(** X22. Records and actions go in step.  When [Up] or [Down] returns
    [nil], the ids of the records it has written are exactly the ids of
    the actions it has invoked, in the same order; when it returns an
    error, they are those ids but possibly the last: at most one invoked
    action is left unrecorded. *)
Theorem records_in_step (currentVersion : N) (m : migrator) (n : Z) (w : World) :
  (∃ ids recs,
    trace (migrator_Up m n w).2 = trace w ++ (CallUp <$> ids) ∧
    ledger (migrator_Up m n w).2 = ledger w ++ recs ∧
    ((migrator_Up m n w).1 = Done None → ID <$> recs = ids) ∧
    (ids = ID <$> recs ∨ ∃ i, ids = (ID <$> recs) ++ [i])) ∧
  (∃ ids recs,
    trace (migrator_Down currentVersion m n w).2 = trace w ++ (CallDown <$> ids) ∧
    ledger (migrator_Down currentVersion m n w).2 = ledger w ++ recs ∧
    ((migrator_Down currentVersion m n w).1 = Done None → ID <$> recs = ids) ∧
    (ids = ID <$> recs ∨ ∃ i, ids = (ID <$> recs) ++ [i])).
Proof.
  split.
  - destruct (Up_call_spec m n w)
      as (err & w' & ids & recs & -> & Ht & Hl & _ & _ & Hrec & Hok & Herr).
    exists ids, recs. simpl. split; [done|]. split; [done|].
    destruct (take_all_or_but_last (length recs) ids) as [Hall Hlast]. split.
    + intros [= ->]. rewrite Hrec. apply Hall. by rewrite Hok.
    + destruct err as [e|].
      * destruct Herr as [Hlen|Hlen]; [done|..].
        -- left. rewrite Hrec. symmetry. by apply Hall.
        -- right. rewrite Hrec. by apply Hlast.
      * left. rewrite Hrec. symmetry. apply Hall. by rewrite Hok.
  - destruct (Down_call_spec currentVersion m n w)
      as (err & w' & ids & recs & -> & Ht & Hl & _ & _ & Hrec & Hok & Herr).
    exists ids, recs. simpl. split; [done|]. split; [done|].
    destruct (take_all_or_but_last (length recs) ids) as [Hall Hlast]. split.
    + intros [= ->]. rewrite Hrec. apply Hall. by rewrite Hok.
    + destruct err as [e|].
      * destruct Herr as [Hlen|Hlen]; [done|..].
        -- left. rewrite Hrec. symmetry. by apply Hall.
        -- right. rewrite Hrec. by apply Hlast.
      * left. rewrite Hrec. symmetry. apply Hall. by rewrite Hok.
Qed.

(** ** [Up] when nothing fails *)

Lemma SetVersion_quiet (m : migrator) (version : N) (description : string)
    (w : World) :
  faults w = [] →
  ∃ w',
    migrator_SetVersion m version description w = (Done None, w') ∧
    faults w' = [] ∧ heap w' = heap w ∧ db w' = db w ∧ trace w' = trace w ∧
    ledger w' = ledger w ++ [mkVersion version description (clock w)].
Proof.
  unfold migrator_SetVersion, InsertOne, time_Now, driver_fault.
  rewrite !bind_run. destruct w as [h l dd c fs t]; simpl. intros ->. simpl.
  by eexists.
Qed.

Lemma forward_succeeds_cons (mn : Migration) (ms : list Migration) :
  forward_succeeds (mn :: ms) → forward_succeeds ms.
Proof. intros H x up d Hx. apply H. by right. Qed.

Lemma forward_succeeds_perm (ms ms' : list Migration) :
  ms ≡ₚ ms' → forward_succeeds ms → forward_succeeds ms'.
Proof. intros Hperm H x up d Hx. apply H. by rewrite Hperm. Qed.

Lemma pending_cons (cv : N) (mn : Migration) (l : list Migration) :
  pending cv (mn :: l) =
    if (ID (MVersion mn) <=? cv)%N || isnil (Up mn) then pending cv l
    else mn :: pending cv l.
Proof. unfold pending, mid. simpl. by destruct (_ || _). Qed.

(** With no driver failure pending and forward actions that succeed, the
    loop of [Up] applies, in order, every migration it does not skip among
    those its budget lets it look at. *)
Lemma Up_range_quiet (m : migrator) (cv : N) (ms : list Migration) :
  ∀ (n : Z) (w : World),
    faults w = [] → forward_succeeds ms →
    ∃ w' recs,
      Up_range m cv n ms w = (Done None, w') ∧
      faults w' = [] ∧ heap w' = heap w ∧
      trace w' = trace w ++ (CallUp <$> (mid <$> pending cv (take (Z.to_nat n) ms))) ∧
      ledger w' = ledger w ++ recs ∧
      ID <$> recs = mid <$> pending cv (take (Z.to_nat n) ms) ∧
      Description <$> recs
        = (λ mn, Description (MVersion mn)) <$> pending cv (take (Z.to_nat n) ms) ∧
      db w' = forward (pending cv (take (Z.to_nat n) ms)) (db w).
Proof.
  induction ms as [|mn rest IH]; intros n w Hf Hok.
  { exists w, []. rewrite take_nil. simpl. rewrite !app_nil_r. by repeat split. }
  destruct (Z.leb_spec n 0) as [Hn|Hn].
  { exists w, []. rewrite Up_range_break by done.
    replace (Z.to_nat n) with 0 by lia. simpl. rewrite !app_nil_r. by repeat split. }
  replace (Z.to_nat n) with (S (Z.to_nat (n - 1))) by lia.
  rewrite firstn_cons, pending_cons. cbn [Up_range].
  rewrite (proj2 (Z.leb_gt n 0) Hn).
  destruct (_ || _) eqn:Hskip.
  { apply IH; [done|by eapply forward_succeeds_cons]. }
  apply orb_false_iff in Hskip as [_ Hnil]. apply isnil_false in Hnil as [up Hup].
  rewrite Hup, bind_run, call_run.
  assert ((up (db w)).2 = None) as Hres by (eapply Hok; [left|done]).
  rewrite Hres, bind_run.
  destruct (SetVersion_quiet m (ID (MVersion mn)) (Description (MVersion mn))
    (set_trace (trace w ++ [CallUp (ID (MVersion mn))]) (set_db (up (db w)).1 w)))
    as (w1 & -> & Hf1 & Hh1 & Hd1 & Ht1 & Hl1); [done|].
  destruct (IH (n - 1)%Z w1 Hf1 (forward_succeeds_cons _ _ Hok))
    as (w' & recs & -> & Hf' & Hh' & Ht' & Hl' & Hid & Hdesc & Hdb).
  exists w', (mkVersion (ID (MVersion mn)) (Description (MVersion mn)) (clock w) :: recs).
  split; [done|]. split; [done|]. split; [by rewrite Hh', Hh1|].
  split. { rewrite Ht', Ht1. simpl. by rewrite <-app_assoc. }
  split. { rewrite Hl', Hl1. simpl. by rewrite <-app_assoc. }
  split. { by rewrite !fmap_cons, Hid. }
  split. { by rewrite !fmap_cons, Hdesc. }
  rewrite Hdb, Hd1. unfold forward. simpl. by rewrite Hup.
Qed.

(** The same for a whole call. *)
Lemma Up_quiet (m : migrator) (n : Z) (w : World) :
  faults w = [] → forward_succeeds (own m w) →
  let applied := pending (current_id (ledger w))
                   (take (Z.to_nat (clamp n (length (own m w))))
                      (sorted_by [] (own m w))) in
  ∃ w' recs,
    migrator_Up m n w = (Done None, w') ∧
    faults w' = [] ∧ own m w' = sorted_by [] (own m w) ∧
    trace w' = trace w ++ (CallUp <$> (mid <$> applied)) ∧
    ledger w' = ledger w ++ recs ∧
    ID <$> recs = mid <$> applied ∧
    Description <$> recs = (λ mn, Description (MVersion mn)) <$> applied ∧
    db w' = forward applied (db w).
Proof.
  intros Hf Hok applied.
  destruct (migrator_Up_run m n w) as (v & d & err & fs & Hcur & _ & ->).
  rewrite (CurrentVersion_quiet m w Hf) in Hcur. injection Hcur as <- <- <- Hw.
  rewrite <-Hw, reported_id.
  destruct (sorted_world_spec m [] w) as (_ & Hl & Hd & Ht & Hfs & Hown & _).
  destruct (Up_range_quiet m (current_id (ledger w)) (sorted_by [] (own m w))
    (clamp n (length (own m w))) (sorted_world m [] w))
    as (w' & recs & -> & Hf' & Hh' & Ht' & Hl' & Hid & Hdesc & Hdb).
  { by rewrite Hfs. }
  { eapply forward_succeeds_perm; [|exact Hok]. symmetry. apply sorted_by_perm. }
  exists w', recs. rewrite Ht', Hl', Hdb, Ht, Hl, Hd. repeat split; try done.
  unfold own in *. by rewrite Hh'.
Qed.

(** X23. With no driver failure and forward actions that succeed, [Up]
    returns [nil] and has applied exactly the migrations that, among the
    first [k] in ascending order of id ([k] the clamped budget), have an id
    above the version recorded before and a forward action: their actions
    have run in that order on the database, and the ledger has gained one
    record for each, in that order, with its id and description. *)
Theorem Up_applies_pending (m : migrator) (n : Z) (w : World) :
  faults w = [] → forward_succeeds (own m w) →
  let applied := pending (current_id (ledger w))
                   (take (Z.to_nat (clamp n (length (own m w))))
                      (sorted_by [] (own m w))) in
  ∃ w' recs,
    migrator_Up m n w = (Done None, w') ∧
    trace w' = trace w ++ (CallUp <$> (mid <$> applied)) ∧
    ledger w' = ledger w ++ recs ∧
    ID <$> recs = mid <$> applied ∧
    Description <$> recs = (λ mn, Description (MVersion mn)) <$> applied ∧
    db w' = forward applied (db w).
Proof.
  intros Hf Hok applied.
  destruct (Up_quiet m n w Hf Hok) as (w' & recs & ? & _ & _ & ? & ? & ? & ? & ?).
  by exists w', recs.
Qed.

Lemma pending_elem (cv : N) (ms : list Migration) (mn : Migration) :
  mn ∈ ms → isnil (Up mn) = false → (cv < mid mn)%N → mn ∈ pending cv ms.
Proof.
  intros Hin Hnil Hid. unfold pending. apply list_elem_of_In, filter_In.
  split; [by apply list_elem_of_In|].
  by rewrite Hnil, (proj2 (N.leb_gt _ _) Hid).
Qed.

Lemma pending_nil (cv : N) (ms : list Migration) :
  (∀ mn, mn ∈ ms → isnil (Up mn) = false → (mid mn ≤ cv)%N) → pending cv ms = [].
Proof.
  induction ms as [|mn ms' IH]; intros H; simpl; [done|].
  destruct (isnil (Up mn)) eqn:Hnil.
  - rewrite orb_true_r. simpl. apply IH. intros x Hx. apply H. by right.
  - rewrite (proj2 (N.leb_le (mid mn) cv)); [|apply H; [left|done]]. simpl.
    apply IH. intros x Hx. apply H. by right.
Qed.

(** After such a call no migration it looked at is left pending. *)
Lemma Up_quiet_bound (m : migrator) (n : Z) (w w' : World) (recs : list Version)
    (l : list Migration) (mn : Migration) :
  ledger w' = ledger w ++ recs →
  ID <$> recs = mid <$> pending (current_id (ledger w)) l →
  mn ∈ l → isnil (Up mn) = false → (mid mn ≤ current_id (ledger w'))%N.
Proof.
  intros Hl Hid Hin Hnil.
  destruct (N.le_gt_cases (mid mn) (current_id (ledger w))) as [Hle|Hgt].
  { etrans; [exact Hle|]. rewrite Hl. apply current_id_app. }
  assert (mid mn ∈ ID <$> recs) as Hrec.
  { rewrite Hid. apply list_elem_of_fmap_2. by apply pending_elem. }
  apply list_elem_of_fmap in Hrec as (x & -> & Hx).
  pose proof (current_id_bound (ledger w')) as Hb. rewrite Forall_forall in Hb.
  apply Hb. rewrite Hl. apply elem_of_app. by right.
Qed.

(** X24. Repeating a call that went through does nothing: after an [Up(n)]
    with no driver failure and forward actions that succeed, a second
    [Up(n)] returns [nil] without invoking an action, writing a record or
    changing the database or the order of the slice. *)
Theorem Up_idempotent (m : migrator) (n : Z) (w : World) :
  faults w = [] → forward_succeeds (own m w) →
  ∃ w1 w2,
    migrator_Up m n w = (Done None, w1) ∧
    migrator_Up m n w1 = (Done None, w2) ∧
    trace w2 = trace w1 ∧ ledger w2 = ledger w1 ∧ db w2 = db w1 ∧
    own m w2 = own m w1.
Proof.
  intros Hf Hok.
  destruct (Up_quiet m n w Hf Hok)
    as (w1 & recs & Hup & Hf1 & Hown1 & _ & Hl1 & Hid1 & _ & _).
  assert (forward_succeeds (own m w1)) as Hok1.
  { rewrite Hown1. eapply forward_succeeds_perm; [|exact Hok].
    symmetry. apply sorted_by_perm. }
  destruct (Up_quiet m n w1 Hf1 Hok1)
    as (w2 & recs2 & Hup2 & _ & Hown2 & Ht2 & Hl2 & Hid2 & _ & Hdb2).
  assert (sorted_by [] (own m w1) = own m w1) as Hfixed.
  { rewrite Hown1. apply sorted_by_fixed, (sorted_by_ordered []). }
  assert (pending (current_id (ledger w1))
            (take (Z.to_nat (clamp n (length (own m w1)))) (sorted_by [] (own m w1)))
          = []) as Hnone.
  { apply pending_nil. intros mn Hin Hnil.
    eapply (Up_quiet_bound m n w w1 recs); [exact Hl1|exact Hid1| |exact Hnil].
    rewrite Hfixed, Hown1, (Permutation_length (sorted_by_perm [] (own m w))) in Hin.
    exact Hin. }
  rewrite Hnone in Ht2, Hid2, Hdb2. simpl in *.
  apply fmap_nil_inv in Hid2 as ->. rewrite app_nil_r in Ht2, Hl2.
  exists w1, w2. repeat split; try done. by rewrite Hown2.
Qed.

(** X25. After an [Up(AllAvailable)] that went through on a set in which
    every migration has a forward action, [Down] reverts nothing: whatever
    its budget, it invokes no backward action and writes no record, since
    no migration is above the version then recorded. *)
Theorem Up_all_then_Down_reverts_nothing (currentVersion : N) (m : migrator)
    (n : Z) (w : World) :
  faults w = [] → forward_succeeds (own m w) →
  (∀ mn, mn ∈ own m w → isnil (Up mn) = false) →
  ∃ w1,
    migrator_Up m AllAvailable w = (Done None, w1) ∧
    trace (migrator_Down currentVersion m n w1).2 = trace w1 ∧
    ledger (migrator_Down currentVersion m n w1).2 = ledger w1.
Proof.
  intros Hf Hok Hfwd.
  destruct (Up_quiet m AllAvailable w Hf Hok)
    as (w1 & recs & Hup & _ & Hown1 & _ & Hl1 & Hid1 & _ & _).
  exists w1. split; [done|].
  destruct (Down_call_spec currentVersion m n w1)
    as (err & w2 & ids & recs2 & -> & Ht & Hl & Hsub & Hall & Hrec & _).
  assert (ids = []) as ->.
  { destruct ids as [|i ids']; [done|]. exfalso.
    apply Forall_cons in Hall as [Hi _].
    assert (i ∈ mid <$> own m w1) as Hin.
    { rewrite <-(sorted_by_perm [(-1)%Z] (own m w1)).
      assert (i ∈ i :: ids') as Hin by left.
      apply (sublist_subseteq _ _ Hsub) in Hin. rewrite fmap_take in Hin.
      by apply (sublist_subseteq _ _ (sublist_take _ _)) in Hin. }
    apply list_elem_of_fmap in Hin as (mn & -> & Hmn).
    rewrite Hown1, (sorted_by_perm [] (own m w)) in Hmn.
    assert (mid mn ≤ current_id (ledger w1))%N; [|lia].
    eapply (Up_quiet_bound m AllAvailable w w1 recs); [exact Hl1|exact Hid1| |by apply Hfwd].
    unfold clamp, AllAvailable. simpl. rewrite Nat2Z.id.
    rewrite <-(Permutation_length (sorted_by_perm [] (own m w))), firstn_all.
    by rewrite (sorted_by_perm [] (own m w)). }
  rewrite take_nil in Hrec. apply fmap_nil_inv in Hrec as ->.
  simpl. rewrite Ht, Hl. simpl. by rewrite !app_nil_r.
Qed.

(** X26. The partial-failure window of [Up]: when the forward action of a
    migration succeeds and the ledger write that follows fails with an
    error [e], [Up] returns at once an error wrapping [e] whose message
    names the version migrated from; the action has run on the database
    and is in the trace, and the ledger is as it was before the step. *)
Theorem Up_write_failure (m : migrator) (n : Z) (w0 : World) (cv : N)
    (mn : Migration) (w1 w2 : World) (up : MigrationFn) (d : DB) (e : error) :
  Up_reaches m n w0 cv mn w1 →
  (cv < mid mn)%N → Up mn = Some up → up (db w1) = (d, None) →
  migrator_SetVersion m (mid mn) (Description (MVersion mn))
    (set_trace (trace w1 ++ [CallUp (mid mn)]) (set_db d w1)) = (Done (Some e), w2) →
  migrator_Up m n w0 = (Done (Some (Wrapf e "set version '%d' info" cv)), w2) ∧
  Cause (Wrapf e "set version '%d' info" cv) = Cause e ∧
  trace w2 = trace w1 ++ [CallUp (mid mn)] ∧ db w2 = d ∧
  ledger w2 = ledger w1.
Proof.
  intros Hreach Hid Hup Hact Hset.
  destruct (Up_reaches_run _ _ _ _ _ _ Hreach Hid) as (k & post & ->).
  { by rewrite Hup. }
  unfold Up_step. rewrite Hup, bind_run, call_run, Hact. simpl.
  unfold mid in Hset. rewrite bind_run, Hset. split; [done|]. split; [done|].
  apply SetVersion_spec in Hset as (_ & Hd & Ht & [(e' & _ & Hl)|[[=] _]]).
  by rewrite Ht, Hd, Hl.
Qed.

(** ** Errors and order *)

(** The two messages [Up] and [Down] wrap an error with. *)
Lemma Up_range_error (m : migrator) (cv : N) (ms : list Migration) :
  ∀ (n : Z) (w w' : World) (e : error),
    Up_range m cv n ms w = (Done (Some e), w') →
    ∃ c, e = Wrapf c "migrate on version '%d'" cv ∨
         e = Wrapf c "set version '%d' info" cv.
Proof.
  induction ms as [|mn rest IH]; intros n w w' e; simpl; [done|].
  destruct (n <=? 0)%Z; [done|].
  destruct (_ || _); [apply IH|].
  rewrite bind_run. destruct (call _ _ w) as [[[c|]|msg] w1]; simpl; try done.
  { intros [= <- <-]. exists c. by left. }
  rewrite bind_run.
  destruct (migrator_SetVersion _ _ _ w1) as [[[c|]|msg] w2]; simpl; try done.
  - intros [= <- <-]. exists c. by right.
  - apply IH.
Qed.

Lemma Down_range_error (m : migrator) (cv : N) (all ms : list Migration) :
  ∀ (i : nat) (n : Z) (w w' : World) (e : error),
    Down_range m cv all i n ms w = (Done (inr e), w') →
    ∃ c, e = Wrapf c "migrate on version '%d'" cv ∨
         e = Wrapf c "set version '%d' info" cv.
Proof.
  induction ms as [|mn rest IH]; intros i n w w' e; simpl; [done|].
  destruct (n <=? 0)%Z; [done|].
  destruct (_ || _); [apply IH|].
  rewrite bind_run. destruct (call _ _ w) as [[[c|]|msg] w1]; simpl; try done.
  { intros [= <- <-]. exists c. by left. }
  rewrite bind_run. destruct (index_before _ _ w1) as [[prev|msg] w2]; simpl; try done.
  rewrite bind_run.
  destruct (migrator_SetVersion _ _ _ w2) as [[[c|]|msg] w3]; simpl; try done.
  - intros [= <- <-]. exists c. by right.
  - apply IH.
Qed.

(** X27. An error returned by [Up] or [Down] is either the error of
    reading the current version, as it is, or an error wrapped with one of
    two messages, "migrate on version '%d'" or "set version '%d' info",
    whose argument is the version the ledger recorded before the call
    (the version migrated from, not the id of the migration at fault). *)
Theorem error_shape (currentVersion : N) (m : migrator) (n : Z) (w : World)
    (e : error) :
  (migrator_Up m n w).1 = Done (Some e) ∨
  (migrator_Down currentVersion m n w).1 = Done (Some e) →
  (∃ v d w', migrator_CurrentVersion m w = (Done (v, d, Some e), w')) ∨
  (∃ c, e = Wrapf c "migrate on version '%d'" (current_id (ledger w)) ∨
        e = Wrapf c "set version '%d' info" (current_id (ledger w))).
Proof.
  intros [Hup|Hdown].
  - destruct (migrator_Up_run m n w) as (v & d & [e'|] & fs & Hcur & Hrep & Hrun).
    { rewrite Hrun in Hup. injection Hup as ->. left. by eexists _, _, _. }
    right. rewrite Hrun in Hup.
    destruct (Up_range _ _ _ _ _) as [r w'] eqn:Hrange. simpl in Hup. subst r.
    specialize (Hrep eq_refl). apply (f_equal fst) in Hrep. rewrite reported_id in Hrep.
    simpl in Hrep. subst v. by eapply Up_range_error.
  - destruct (migrator_Down_run currentVersion m n w)
      as (v & d & [e'|] & fs & Hcur & Hrep & Hrun).
    { rewrite Hrun in Hdown. injection Hdown as ->. left. by eexists _, _, _. }
    right. rewrite Hrun in Hdown.
    destruct (Down_range _ _ _ _ _ _ _) as [[[n'|e']|msg] w'] eqn:Hrange;
      simpl in Hdown; try done. injection Hdown as ->.
    specialize (Hrep eq_refl). apply (f_equal fst) in Hrep. rewrite reported_id in Hrep.
    simpl in Hrep. subst v. by eapply Down_range_error.
Qed.

Lemma StronglySorted_sublist {A : Type} (R : relation A) (l1 l2 : list A) :
  l1 `sublist_of` l2 → StronglySorted R l2 → StronglySorted R l1.
Proof.
  induction 1 as [|x l1 l2 Hsub IH|x l1 l2 Hsub IH]; intros Hsorted; [done|..].
  - apply StronglySorted_cons in Hsorted as [Hx Hl2].
    apply StronglySorted_cons. split; [|by apply IH].
    rewrite Forall_forall in Hx |- *. intros y Hy. apply Hx.
    by apply (sublist_subseteq _ _ Hsub).
  - apply StronglySorted_cons in Hsorted as [_ Hl2]. by apply IH.
Qed.

(** X28. [Up] invokes forward actions in ascending order of id and [Down]
    backward actions in descending order of id. *)
Theorem actions_in_order (currentVersion : N) (m : migrator) (n : Z) (w : World) :
  (∃ ids,
    trace (migrator_Up m n w).2 = trace w ++ (CallUp <$> ids) ∧
    StronglySorted N.le ids) ∧
  (∃ ids,
    trace (migrator_Down currentVersion m n w).2 = trace w ++ (CallDown <$> ids) ∧
    StronglySorted (flip N.le) ids).
Proof.
  split.
  - destruct (Up_trace m n w) as (ids & Ht & Hsub & _).
    exists ids. split; [done|].
    eapply StronglySorted_sublist; [exact Hsub|].
    eapply StronglySorted_fmap; [|apply sorted_by_asc]. by intros x y.
  - destruct (Down_trace currentVersion m n w) as (ids & Ht & Hsub & _).
    exists ids. split; [done|].
    eapply StronglySorted_sublist; [exact Hsub|].
    eapply StronglySorted_fmap; [|apply sorted_by_desc]. by intros x y.
Qed.

(** ** The concrete inputs *)

Lemma own_world (ms : list Migration) (l : list Version) (d : DB) :
  own migrator1 (world ms l d) = ms.
Proof. unfold own, world. simpl. by rewrite lookup_singleton_eq. Defined.

Lemma v135_forward_succeeds : forward_succeeds v135.
Proof.
  intros mn up d Hin Hup.
  repeat (apply elem_of_cons in Hin as [->|Hin]); try (by injection Hup as <-).
  by apply elem_of_nil in Hin.
Defined.

Lemma v135_all_forward (mn : Migration) : mn ∈ v135 → isnil (Up mn) = false.
Proof.
  intros Hin. repeat (apply elem_of_cons in Hin as [->|Hin]); try done.
  by apply elem_of_nil in Hin.
Defined.

Lemma v135_distinct : NoDup (mid <$> v135).
Proof. apply (bool_decide_unpack _). vm_compute. exact I. Defined.

End migrate.

(** * The engine at concrete inputs *)

(** C1 at the set {v1} with an empty ledger: [Up(AllAvailable)] applies v1
    and records version 1; [Down(AllAvailable)] then skips v1, since its
    id is not above the current version, calls no backward action and
    writes nothing: the recorded version is still 1, not 0. *)
Theorem Up_all_Down_all_keeps_version (currentVersion : N) :
  let '(r, w) :=
    session (λ m, _ ← migrator_Up m AllAvailable;
                  migrator_Down currentVersion m AllAvailable)
      (world [mig 1 "one"] [] tt) in
  r = Done None ∧ trace w = [CallUp 1%N] ∧
  ledger w = [mkVersion 1 "one" 0] ∧ current_id (ledger w) = 1%N.
Proof. vm_compute. done. Qed.

(** C2 at the set {v1, v3} with an empty ledger: [Down(1)] calls the
    backward action of v3, which stands at ascending position 1 after v1,
    and the record it writes carries id 3 and the description of v3, not
    those of v1. *)
Theorem Down_records_own_id (currentVersion : N) :
  let '(r, w) :=
    session (λ m, migrator_Down currentVersion m 1)
      (world [mig 1 "one"; mig 3 "three"] [] tt) in
  r = Done None ∧ trace w = [CallDown 3%N] ∧
  ledger w = [mkVersion 3 "three" 0] ∧
  sorted_by [] [mig 1 "one"; mig 3 "three"] !! 0 = Some (mig (DB := unit) 1 "one").
Proof. vm_compute. done. Qed.

(** C3 at the set {v1, v3, v5}: from an empty ledger [Up(1)] records
    version 1; a second [Up(1)] spends its budget on v1, which it skips,
    and stops: v3 is not applied and the recorded version is still 1. *)
Theorem Up_skip_consumes_budget :
  let '(r, w) :=
    session (λ m, _ ← migrator_Up m 1; migrator_Up m 1) (world v135 [] tt) in
  r = Done None ∧ trace w = [CallUp 1%N] ∧ current_id (ledger w) = 1%N.
Proof. vm_compute. done. Qed.

(** The same from a ledger that already records version 1. *)
Example Up_1_from_version_1 :
  let '(r, w) :=
    session (λ m, migrator_Up m 1) (world v135 [mkVersion 1 "one" 0] tt) in
  r = Done None ∧ trace w = [] ∧ current_id (ledger w) = 1%N.
Proof. vm_compute. done. Qed.

(** C8 on a ledger holding the records 1 and 5: [Get(1)] returns the
    record with id 5, and so does [Get(7)], for which there is no record. *)
Theorem Get_ignores_id :
  let w := world [] [mkVersion 1 "one" 0; mkVersion 5 "five" 1] tt in
  versions_Get (NewVersions "migrations") 1 w = (Done (5%N, "five", None), w) ∧
  versions_Get (NewVersions "migrations") 7 w = (Done (5%N, "five", None), w).
Proof. vm_compute. done. Qed.

(** [Current] panics on every ledger, and with it [Version]. *)
Lemma versions_Current_stub {DB : Type} (m : migrator) (w : @World DB) :
  versions_Current (mversions m) w = (Panic "implement me", w) ∧
  migrator_Version m w = (Panic "implement me", w).
Proof. done. Qed.

(** C9 on an empty ledger: [Current] panics, and so does [Version], which
    delegates to it; the lookup that reports "no version" with a nil error
    is the one [Up] and [Down] start from. *)
Theorem Current_panics :
  let w := world [] [] tt in
  let m := mkMigrator (NewVersions "migrations") 1%positive in
  versions_Current (NewVersions "migrations") w = (Panic "implement me", w) ∧
  migrator_Version m w = (Panic "implement me", w) ∧
  migrator_CurrentVersion m w = (Done (0%N, "", None), w).
Proof. vm_compute. done. Qed.

(** C5 at the set {v1} with an empty ledger: [Up(1)] applies v1, its
    step succeeds and the ledger records version 1, which is what the
    lookup [Up] and [Down] start from returns; but [Version()], called
    next, panics, since it delegates to [Current]: it does not return the
    id of v1. *)
Theorem Version_panics_after_Up_step :
  let '(r, w) :=
    session (λ m, _ ← migrator_Up m 1; migrator_Version m)
      (world [mig 1 "one"] [] tt) in
  r = Panic "implement me" ∧
  trace w = [CallUp 1%N] ∧ ledger w = [mkVersion 1 "one" 0] ∧
  (∀ m, migrator_CurrentVersion m w = (Done (1%N, "one", None), w)) ∧
  (∀ m, migrator_Version m w = (Panic "implement me", w)).
Proof. vm_compute. done. Qed.

(** ** Instances of the theorems that have hypotheses *)

Lemma Up_step_sets_version_witness :
  (∃ k post recs,
    migrator_Up migrator1 AllAvailable
        (world [mig 3 "three"; mig 1 "one"] [mkVersion 1 "one" 0] tt)
      = Up_range migrator1 1 k post (after_v3 tt) ∧
    ledger (migrator_Up migrator1 AllAvailable
              (world [mig 3 "three"; mig 1 "one"] [mkVersion 1 "one" 0] tt)).2
      = ledger (after_v3 tt) ++ recs) ∧
  latest (ledger (after_v3 tt)) = Some (mkVersion 3 "three" 0) ∧
  current_id (ledger (after_v3 tt)) = 3%N ∧
  ∀ i d w3, migrator_CurrentVersion migrator1 (after_v3 tt) = (Done (i, d, None), w3) →
    i = 3%N ∧ d = "three".
Proof.
  apply (Up_step_sets_version migrator1 AllAvailable
           (world [mig 3 "three"; mig 1 "one"] [mkVersion 1 "one" 0] tt)
           1%N (mig 3 "three") (before_v3 tt) (after_v3 tt)).
  - exists "one", [], [mig 1 "one"], []. vm_compute. done.
  - vm_compute. reflexivity.
  - reflexivity.
  - vm_compute. reflexivity.
Defined.


Lemma NewMigrate_clones_witness :
  ∃ m w1,
    NewMigrate 1%positive [] (world v135 [] tt) = (Done m, w1) ∧
    migrations m ≠ 1%positive ∧
    own m w1 = v135 ∧
    heap w1 !! 1%positive = Some v135 ∧
    heap (run_calls 0 m [DoUp AllAvailable; DoDown 1] w1) !! 1%positive = Some v135.
Proof.
  apply (NewMigrate_clones 0%N 1%positive v135 [] [DoUp AllAvailable; DoDown 1]
           (world v135 [] tt)).
  reflexivity.
Defined.

(** ** Instances of the further properties that have hypotheses *)

Lemma Sort_orders_in_place_witness :
  (∃ w' ms',
    Migrations_Sort 1%positive [] (world v135 [] tt) = (Done tt, w') ∧
    heap w' !! 1%positive = Some ms' ∧ ms' ≡ₚ v135 ∧ StronglySorted asc ms' ∧
    (∀ l, l ≠ 1%positive → heap w' !! l = heap (world v135 [] tt) !! l) ∧
    ledger w' = ledger (world v135 [] tt) ∧ db w' = db (world v135 [] tt) ∧
    trace w' = trace (world v135 [] tt)) ∧
  (∃ w' ms',
    Migrations_Sort 1%positive [(-1)%Z] (world v135 [] tt) = (Done tt, w') ∧
    heap w' !! 1%positive = Some ms' ∧ ms' ≡ₚ v135 ∧ StronglySorted desc ms' ∧
    (∀ l, l ≠ 1%positive → heap w' !! l = heap (world v135 [] tt) !! l) ∧
    ledger w' = ledger (world v135 [] tt) ∧ db w' = db (world v135 [] tt) ∧
    trace w' = trace (world v135 [] tt)).
Proof.
  apply (Sort_orders_in_place 1%positive v135 (world v135 [] tt)).
  reflexivity.
Defined.

Lemma Sort_registration_order_witness :
  sorted_by [] (v135 (DB := unit))
    = sorted_by [] [mig 1 "one"; mig 5 "five"; mig 3 "three"].
Proof.
  apply (Sort_registration_order [] v135 [mig 1 "one"; mig 5 "five"; mig 3 "three"]).
  - exact v135_distinct.
  - apply Permutation_swap.
Defined.

Lemma Sort_descending_reverse_witness :
  sorted_by [(-1)%Z] (v135 (DB := unit)) = reverse (sorted_by [] v135).
Proof. apply (Sort_descending_reverse v135). exact v135_distinct. Defined.

Lemma Get_returns_greatest_witness :
  let w := world [] [mkVersion 1 "one" 0; mkVersion 5 "five" 1] tt in
  (ledger w = [] ∧ 5%N = 0%N ∧ "five" = "") ∨
  (∃ rec, rec ∈ ledger w ∧ ID rec = 5%N ∧ Description rec = "five" ∧
          Forall (λ x, (ID x ≤ 5)%N) (ledger w)).
Proof.
  apply (Get_returns_greatest (NewVersions "migrations") 7
           (world [] [mkVersion 1 "one" 0; mkVersion 5 "five" 1] tt)
           (world [] [mkVersion 1 "one" 0; mkVersion 5 "five" 1] tt) 5%N "five").
  vm_compute. reflexivity.
Defined.

Lemma SetVersion_then_Get_witness :
  let w := world [] [mkVersion 1 "one" 0] tt in
  let w1 := (migrator_SetVersion migrator1 3%N "three" w).2 in
  versions_Get (mversions migrator1) 7 w1 = (Done (3%N, "three", None), w1) ∧
  3%N = 3%N ∧ "three" = "three".
Proof.
  split; [vm_compute; reflexivity|].
  apply (SetVersion_then_Get migrator1 3%N "three" 7
           (world [] [mkVersion 1 "one" 0] tt)
           (migrator_SetVersion migrator1 3%N "three" (world [] [mkVersion 1 "one" 0] tt)).2
           (migrator_SetVersion migrator1 3%N "three" (world [] [mkVersion 1 "one" 0] tt)).2
           3%N "three").
  - vm_compute. repeat constructor.
  - vm_compute. reflexivity.
  - vm_compute. reflexivity.
Defined.

Lemma SetVersion_lower_no_effect_witness :
  let w := world [] [mkVersion 5 "five" 0] tt in
  let w1 := (migrator_SetVersion migrator1 1%N "one" w).2 in
  reported (ledger w1) = reported (ledger w) ∧
  ∀ id i d w2, versions_Get (mversions migrator1) id w1 = (Done (i, d, None), w2) →
    (i, d) = reported (ledger w).
Proof.
  apply (SetVersion_lower_no_effect migrator1 1%N "one"
           (world [] [mkVersion 5 "five" 0] tt)
           (migrator_SetVersion migrator1 1%N "one" (world [] [mkVersion 5 "five" 0] tt)).2
           (Done None)).
  - vm_compute. reflexivity.
  - vm_compute. reflexivity.
Defined.

Lemma read_failure_aborts_witness :
  let w := world_with [Some "unreachable"] v135 [] tt in
  let w' := set_faults [] w in
  migrator_Up migrator1 1 w = (Done (Some (ErrorNew "unreachable")), w') ∧
  migrator_Down 0 migrator1 1 w = (Done (Some (ErrorNew "unreachable")), w') ∧
  heap w' = heap w ∧ ledger w' = ledger w ∧ trace w' = trace w ∧ db w' = db w.
Proof.
  apply (read_failure_aborts 0%N migrator1 1
           (world_with [Some "unreachable"] v135 [] tt)
           (set_faults [] (world_with [Some "unreachable"] v135 [] tt))
           0%N "" (ErrorNew "unreachable")).
  vm_compute. reflexivity.
Defined.

Lemma budget_all_witness :
  migrator_Up migrator1 7 (world v135 [] tt)
    = migrator_Up migrator1 AllAvailable (world v135 [] tt) ∧
  migrator_Down 0 migrator1 7 (world v135 [] tt)
    = migrator_Down 0 migrator1 AllAvailable (world v135 [] tt).
Proof.
  apply (budget_all 0%N migrator1 7 (world v135 [] tt)).
  right. vm_compute. reflexivity.
Defined.

Lemma migrators_do_not_alias_witness :
  let w := world v135 [] tt in
  let m1 := mkMigrator (NewVersions "migrations") 2%positive in
  let m2 := mkMigrator (NewVersions "ledger") 3%positive in
  let w2 := (NewMigrate 1%positive [WithMigrationsCollection "ledger"]
               (NewMigrate 1%positive [] w).2).2 in
  migrations m1 ≠ migrations m2 ∧
  own m2 (run_calls 0 m1 [DoUp AllAvailable; DoDown 2] w2) = own m2 w2.
Proof.
  apply (migrators_do_not_alias 0%N 1%positive [] [WithMigrationsCollection "ledger"]
           [DoUp AllAvailable; DoDown 2] (world v135 [] tt)
           (NewMigrate 1%positive [] (world v135 [] tt)).2).
  - vm_compute. reflexivity.
  - vm_compute. reflexivity.
Defined.

Lemma Up_applies_pending_witness :
  let w := world v135 [] tt in
  let applied := pending (current_id (ledger w))
                   (take (Z.to_nat (clamp 2 (length (own migrator1 w))))
                      (sorted_by [] (own migrator1 w))) in
  ∃ w' recs,
    migrator_Up migrator1 2 w = (Done None, w') ∧
    trace w' = trace w ++ (CallUp <$> (mid <$> applied)) ∧
    ledger w' = ledger w ++ recs ∧
    ID <$> recs = mid <$> applied ∧
    Description <$> recs = (λ mn, Description (MVersion mn)) <$> applied ∧
    db w' = forward applied (db w).
Proof.
  apply (Up_applies_pending migrator1 2 (world v135 [] tt)).
  - reflexivity.
  - rewrite own_world. exact v135_forward_succeeds.
Defined.

Lemma Up_idempotent_witness :
  ∃ w1 w2,
    migrator_Up migrator1 1 (world v135 [] tt) = (Done None, w1) ∧
    migrator_Up migrator1 1 w1 = (Done None, w2) ∧
    trace w2 = trace w1 ∧ ledger w2 = ledger w1 ∧ db w2 = db w1 ∧
    own migrator1 w2 = own migrator1 w1.
Proof.
  apply (Up_idempotent migrator1 1 (world v135 [] tt)).
  - reflexivity.
  - rewrite own_world. exact v135_forward_succeeds.
Defined.

Lemma Up_all_then_Down_reverts_nothing_witness :
  ∃ w1,
    migrator_Up migrator1 AllAvailable (world v135 [] tt) = (Done None, w1) ∧
    trace (migrator_Down 0 migrator1 AllAvailable w1).2 = trace w1 ∧
    ledger (migrator_Down 0 migrator1 AllAvailable w1).2 = ledger w1.
Proof.
  apply (Up_all_then_Down_reverts_nothing 0%N migrator1 AllAvailable (world v135 [] tt)).
  - reflexivity.
  - rewrite own_world. exact v135_forward_succeeds.
  - intros mn Hin. rewrite own_world in Hin. by apply v135_all_forward.
Defined.

Lemma Up_write_failure_witness :
  let w0 := world_with [None; Some "disk full"] [mig 1 "one"] [] tt in
  let w1 := sorted_world migrator1 [] (set_faults [Some "disk full"] w0) in
  let w2 := (migrator_SetVersion migrator1 1%N "one"
               (set_trace (trace w1 ++ [CallUp 1%N]) (set_db tt w1))).2 in
  migrator_Up migrator1 1 w0
    = (Done (Some (Wrapf (ErrorNew "disk full") "set version '%d' info" 0)), w2) ∧
  Cause (Wrapf (ErrorNew "disk full") "set version '%d' info" 0)
    = Cause (ErrorNew "disk full") ∧
  trace w2 = trace w1 ++ [CallUp (mid (mig (DB := unit) 1 "one"))] ∧ db w2 = tt ∧
  ledger w2 = ledger w1.
Proof.
  apply (Up_write_failure migrator1 1
           (world_with [None; Some "disk full"] [mig 1 "one"] [] tt) 0%N (mig 1 "one")
           (sorted_world migrator1 []
              (set_faults [Some "disk full"]
                 (world_with [None; Some "disk full"] [mig 1 "one"] [] tt)))
           _ noop tt (ErrorNew "disk full")).
  - exists "", [Some "disk full"], [], []. vm_compute. done.
  - vm_compute. reflexivity.
  - reflexivity.
  - reflexivity.
  - vm_compute. reflexivity.
Defined.

Lemma error_shape_witness :
  let w := world [v3_failing; mig 1 "one"] [] tt in
  let e := Wrapf (ErrorNew "boom") "migrate on version '%d'" 0 in
  (∃ i d w', migrator_CurrentVersion migrator1 w = (Done (i, d, Some e), w')) ∨
  (∃ c, e = Wrapf c "migrate on version '%d'" (current_id (ledger w)) ∨
        e = Wrapf c "set version '%d' info" (current_id (ledger w))).
Proof.
  apply (error_shape 0%N migrator1 AllAvailable (world [v3_failing; mig 1 "one"] [] tt)
           (Wrapf (ErrorNew "boom") "migrate on version '%d'" 0)).
  left. vm_compute. reflexivity.
Defined.

Lemma NewMigrate_collection_witness :
  let made := NewMigrate 1%positive
                (WithMigrationsCollection <$> ["first"; "ledger"]) (world v135 [] tt) in
  made.1 = Done (mkMigrator (NewVersions "ledger") 2%positive) ∧
  collection (mversions (mkMigrator (NewVersions "ledger") 2%positive))
    = default _defaultMigrationsCollection (last ["first"; "ledger"]).
Proof.
  split; [vm_compute; reflexivity|].
  apply (NewMigrate_collection 1%positive ["first"; "ledger"] (world v135 [] tt)
           (NewMigrate 1%positive (WithMigrationsCollection <$> ["first"; "ledger"])
              (world v135 [] tt)).2).
  vm_compute. reflexivity.
Defined.

Lemma NewMigrate_fresh_witness :
  let w := world v135 [] tt in
  let m := mkMigrator (NewVersions "migrations") 2%positive in
  let w' := (NewMigrate 1%positive [] w).2 in
  heap w !! migrations m = None ∧
  own m w' = default [] (heap w !! 1%positive) ∧
  (∀ l, is_Some (heap w !! l) → heap w' !! l = heap w !! l) ∧
  ledger w' = ledger w ∧ db w' = db w ∧ trace w' = trace w.
Proof.
  apply (NewMigrate_fresh 1%positive [] (world v135 [] tt)).
  vm_compute. reflexivity.
Defined.
